(** * tele-flow: the liquidation monitor of [src/main.py]

    A shallow embedding of the event store, the message parser, the
    windowed-metrics calculator, the acceleration heuristic and the
    IDLE/ACTIVE detection state machine, with the properties the
    specification states about them.

    Conventions of the embedding:
    - a Python [float] is an exact rational ([Q]); results are compared
      with [==] ([Qeq]), rounding is not modelled;
    - a [datetime] is an integer count of microseconds ([Z]), a
      [timedelta] is a difference of two of them, and [total_seconds]
      turns it into a rational number of seconds;
    - a [dict] for an event is a record, a [dict] used as a map is an
      association list in insertion order (Python keeps that order);
    - text is a [string] of ASCII characters: the character classes of
      the pattern, [str.upper], [str.capitalize] and [float] are the ASCII
      part of what Python has, so what is proved of the parser on
      arbitrary text is stated for texts whose characters are all below
      128 ([is_ascii]). *)

From Stdlib Require Import ZArith QArith Qfield List Bool Ascii String Lia.
From Stdlib Require Import Permutation Sorted.
Import ListNotations.

Local Open Scope Q_scope.

(** ** Configuration (module-level constants read from the environment) *)

Record Config := mkConfig {
  MESSAGE_HISTORY_LIMIT : Z;
  BASE_THRESHOLD_USD_PER_SEC : Q;
  ANALYSIS_WINDOW_SECONDS : Z;
  MONITORING_INTERVAL_SECONDS : Z;
  ACCELERATION_THRESHOLD : Q;
  DOMINANCE_THRESHOLD : Q;
  BIAS_THRESHOLD : Q;
  SUMMARY_COOLDOWN_SECONDS : Z;
  ACTIVE_IDLE_TRANSITION_GRACE_PERIOD_SECONDS : Z;
  SINGLE_EVENT_NOTIFICATION_THRESHOLD : Q;
  DISCORD_WEBHOOK_URL : option string
}.

(** The defaults of the [os.getenv] calls, with a webhook configured. *)
Definition default_config : Config := {|
  MESSAGE_HISTORY_LIMIT := 50;
  BASE_THRESHOLD_USD_PER_SEC := 20000;
  ANALYSIS_WINDOW_SECONDS := 300;
  MONITORING_INTERVAL_SECONDS := 10;
  ACCELERATION_THRESHOLD := 3;
  DOMINANCE_THRESHOLD := 75 # 100;
  BIAS_THRESHOLD := 85 # 100;
  SUMMARY_COOLDOWN_SECONDS := 60;
  ACTIVE_IDLE_TRANSITION_GRACE_PERIOD_SECONDS := 30;
  SINGLE_EVENT_NOTIFICATION_THRESHOLD := 0;
  DISCORD_WEBHOOK_URL := Some "https://discord.example/hook"%string
|}.

Definition LIQUIDATION_HISTORY_LIMIT : nat := 200.

(** ** Rational comparisons as booleans *)

(** [a > b] and [a >= b] on floats. *)
Definition Qgtb (a b : Q) : bool := negb (Qle_bool a b).
Definition Qgeb (a b : Q) : bool := Qle_bool b a.
Definition Qltb (a b : Q) : bool := negb (Qle_bool b a).

(** An [int] used where a float is expected. *)
Definition of_int (z : Z) : Q := inject_Z z.

(** ** Time *)

Definition datetime := Z.

(** [(a - b).total_seconds()] for a difference of [d] microseconds. *)
Definition total_seconds (d : Z) : Q := d # 1000000.

(** [timedelta(seconds=n)], in microseconds. *)
Definition timedelta_seconds (n : Z) : Z := (n * 1000000)%Z.

(** ** Events *)

Record event := mkEvent {
  ev_timestamp : datetime;
  ev_ticker : string;
  ev_direction : string;
  ev_amount : Q
}.

(** ** Metrics calculator *)

(** [sum(e['amount'] for e in events if p(e))]: Python's [sum] starts
    from 0 and adds from the left. *)
Definition sum_amounts (p : event -> bool) (events : list event) : Q :=
  fold_left (fun acc e => if p e then acc + ev_amount e else acc) events 0.

Definition is_long (e : event) : bool := String.eqb (ev_direction e) "Long".
Definition is_short (e : event) : bool := String.eqb (ev_direction e) "Short".
(** [e['direction'] in ['Long', 'Short']] *)
Definition is_directional (e : event) : bool := is_long e || is_short e.

(** [ticker_amounts[t] += a] on a [defaultdict(float)]: a present key
    keeps its place, a new key goes to the end. *)
Fixpoint dict_add (t : string) (a : Q) (d : list (string * Q)) : list (string * Q) :=
  match d with
  | [] => [(t, 0 + a)]
  | (k, v) :: d' =>
      if String.eqb k t then (k, v + a) :: d' else (k, v) :: dict_add t a d'
  end.

Definition ticker_amounts (events : list event) : list (string * Q) :=
  fold_left (fun d e => dict_add (ev_ticker e) (ev_amount e) d) events [].

Fixpoint dict_get (t : string) (d : list (string * Q)) : option Q :=
  match d with
  | [] => None
  | (k, v) :: d' => if String.eqb k t then Some v else dict_get t d'
  end.

Record metrics := mkMetrics {
  speed_usd_per_sec : Q;
  total_amount : Q;
  total_count : nat;
  avg_event_amount : Q;
  dominance_info : list (string * Q);
  long_bias : Q;
  short_bias : Q
}.

Definition calculate_liquidation_metrics (events : list event) (window_seconds : Q)
  : metrics :=
  let total := sum_amounts (fun _ => true) events in
  let count := List.length events in
  let speed := if Qgtb window_seconds 0 then total / window_seconds else 0 in
  let tickers := ticker_amounts events in
  let dominance :=
    if Qgtb total 0 then map (fun ta => (fst ta, snd ta / total)) tickers else [] in
  let long_amount := sum_amounts is_long events in
  let total_directional_amount := sum_amounts is_directional events in
  let lbias :=
    if Qgtb total_directional_amount 0
    then long_amount / total_directional_amount else 0 in
  {| speed_usd_per_sec := speed;
     total_amount := total;
     total_count := count;
     avg_event_amount :=
       if (0 <? count)%nat then total / of_int (Z.of_nat count) else 0;
     dominance_info := dominance;
     long_bias := lbias;
     short_bias :=
       if Qgtb total_directional_amount 0 then 1 - lbias else 0 |}.

(** ** Acceleration heuristic *)

Definition calculate_acceleration (cfg : Config) (current_speed prev_speed : Q) : Q :=
  if Qgtb prev_speed 500 then current_speed / prev_speed
  else if Qgtb current_speed 0 then ACCELERATION_THRESHOLD cfg
  else 1.

(** ** Event store (the [liquidations] table)

    A stored timestamp is the text the [sqlite3] adapter wrote for a UTC
    [datetime]; such texts order as the instants do, and [BETWEEN] and
    [ORDER BY] compare the texts.  [TsIso t] is the text of instant [t].
    [TsJunk k] is a text [datetime.fromisoformat] rejects, standing at
    position [k] in that order. *)

Inductive ts_val := TsIso (t : datetime) | TsJunk (k : Z).

Definition ts_key (v : ts_val) : Z :=
  match v with TsIso t => t | TsJunk k => k end.

Record row := mkRow {
  row_id : Z;
  row_timestamp : ts_val;
  row_ticker : string;
  row_direction : string;
  row_amount : Q
}.

(** The table, rows in rowid order, and the AUTOINCREMENT counter (the
    largest rowid ever handed out). *)
Record db := mkDb {
  db_rows : list row;
  db_seq : Z
}.

(** The table [init_db] creates. *)
Definition empty_db : db := {| db_rows := []; db_seq := 0 |}.

Definition _to_datetime (v : ts_val) : option datetime :=
  match v with TsIso t => Some t | TsJunk _ => None end.

(** [ORDER BY timestamp DESC, id DESC]: is [a] at or before [b]? *)
Definition newer_eqb (a b : row) : bool :=
  let ka := ts_key (row_timestamp a) in
  let kb := ts_key (row_timestamp b) in
  (kb <? ka)%Z || ((ka =? kb)%Z && (row_id b <=? row_id a)%Z).

(** [ORDER BY timestamp ASC]: rows of equal timestamp stay in rowid order. *)
Definition older_eqb (a b : row) : bool :=
  (ts_key (row_timestamp a) <=? ts_key (row_timestamp b))%Z.

Section Sorting.
Variable A : Type.
Variable leb : A -> A -> bool.

Fixpoint insert_sorted (x : A) (l : list A) : list A :=
  match l with
  | [] => [x]
  | y :: l' => if leb x y then x :: l else y :: insert_sorted x l'
  end.

(** A stable insertion sort. *)
Definition sort_by (l : list A) : list A :=
  fold_right insert_sorted [] l.
End Sorting.

Arguments insert_sorted {A} leb x l.
Arguments sort_by {A} leb l.

(** [SELECT id FROM liquidations ORDER BY timestamp DESC, id DESC LIMIT n] *)
Definition select_recent_ids (n : nat) (rows : list row) : list Z :=
  map row_id (firstn n (sort_by newer_eqb rows)).

Definition id_in (ids : list Z) (r : row) : bool :=
  existsb (Z.eqb (row_id r)) ids.

Definition add_liquidation (conn : db) (timestamp : datetime)
    (ticker direction : string) (amount : Q) : db :=
  let new_id := (db_seq conn + 1)%Z in
  let inserted :=
    db_rows conn ++ [mkRow new_id (TsIso timestamp) ticker direction amount] in
  let keep := select_recent_ids LIQUIDATION_HISTORY_LIMIT inserted in
  {| db_rows := filter (id_in keep) inserted; db_seq := new_id |}.

(** [WHERE timestamp BETWEEN ? AND ?] *)
Definition between (start_time end_time : datetime) (r : row) : bool :=
  let k := ts_key (row_timestamp r) in
  (start_time <=? k)%Z && (k <=? end_time)%Z.

(** The loop over the fetched rows: a row whose timestamp does not parse
    is left out. *)
Fixpoint rows_to_events (rows : list row) : list event :=
  match rows with
  | [] => []
  | r :: rows' =>
      match _to_datetime (row_timestamp r) with
      | Some ts =>
          mkEvent ts (row_ticker r) (row_direction r) (row_amount r)
            :: rows_to_events rows'
      | None => rows_to_events rows'
      end
  end.

(** [clock] is what [datetime.now(timezone.utc)] returns when [end_time]
    is omitted. *)
Definition get_liquidations_in_timeframe (clock : datetime) (conn : db)
    (start_time : datetime) (end_time : option datetime) : list event :=
  let end_time := match end_time with Some e => e | None => clock end in
  let rows := sort_by older_eqb (filter (between start_time end_time) (db_rows conn)) in
  rows_to_events rows.

(** ** Message parser *)

Local Open Scope string_scope.

Definition char_in (lo hi : N) (c : ascii) : bool :=
  (lo <=? N_of_ascii c)%N && (N_of_ascii c <=? hi)%N.

Definition is_upper (c : ascii) : bool := char_in 65 90 c.
Definition is_lower (c : ascii) : bool := char_in 97 122 c.
(** [\d], [\w] and [\s] on ASCII text. *)
Definition is_digit (c : ascii) : bool := char_in 48 57 c.
Definition is_word (c : ascii) : bool :=
  is_upper c || is_lower c || is_digit c || Ascii.eqb c "_".
Definition is_space (c : ascii) : bool :=
  char_in 9 13 c || char_in 28 32 c.

Definition to_lower (c : ascii) : ascii :=
  if is_upper c then ascii_of_N (N_of_ascii c + 32) else c.
Definition to_upper (c : ascii) : ascii :=
  if is_lower c then ascii_of_N (N_of_ascii c - 32) else c.

Fixpoint string_map (f : ascii -> ascii) (s : string) : string :=
  match s with
  | EmptyString => EmptyString
  | String c s' => String (f c) (string_map f s')
  end.

(** [str.upper] and [str.capitalize]. *)
Definition upper (s : string) : string := string_map to_upper s.
Definition capitalize (s : string) : string :=
  match s with
  | EmptyString => EmptyString
  | String c s' => String (to_upper c) (string_map to_lower s')
  end.

(** Two characters equal under [re.IGNORECASE]. *)
Definition eqb_ci (a b : ascii) : bool := Ascii.eqb (to_lower a) (to_lower b).

(** The backtracking matcher of [re], written with continuations: a
    piece of the pattern gets the text still to read and a continuation
    for the rest of the pattern, which is given the text the piece took
    and the text left; [None] makes the piece try its next choice. *)
Section Matcher.
Variable R : Type.

Definition kont := string -> string -> option R.

Definition or_else (a b : option R) : option R :=
  match a with Some r => Some r | None => b end.

(** [x*] for a character class, greedy. *)
Fixpoint star (p : ascii -> bool) (s : string) (k : kont) : option R :=
  match s with
  | String c s' =>
      if p c
      then or_else (star p s' (fun took rest => k (String c took) rest)) (k "" s)
      else k "" s
  | EmptyString => k "" s
  end.

(** [x+] for a character class, greedy. *)
Definition plus (p : ascii -> bool) (s : string) (k : kont) : option R :=
  match s with
  | String c s' =>
      if p c then star p s' (fun took rest => k (String c took) rest) else None
  | EmptyString => None
  end.

(** [x?] for a character class, greedy. *)
Definition opt (p : ascii -> bool) (s : string) (k : kont) : option R :=
  match s with
  | String c s' => if p c then or_else (k (String c "") s') (k "" s) else k "" s
  | EmptyString => k "" s
  end.

(** A literal word, letters compared without case. *)
Fixpoint lit (w : string) (s : string) (k : kont) : option R :=
  match w with
  | EmptyString => k "" s
  | String a w' =>
      match s with
      | String c s' =>
          if eqb_ci a c then lit w' s' (fun took rest => k (String c took) rest)
          else None
      | EmptyString => None
      end
  end.
End Matcher.

Arguments star {R} p s k.
Arguments plus {R} p s k.
Arguments opt {R} p s k.
Arguments lit {R} w s k.
Arguments or_else {R} a b.

Definition groups := (string * string * string)%type.

(** [(\$[\d,]+\.?\d*[kM]?)]; under [re.IGNORECASE] the last class also
    takes [K] and [m]. *)
Definition match_amount (s : string) (k : kont groups) : option groups :=
  lit "$" s (fun t1 s1 =>
  plus (fun c => is_digit c || Ascii.eqb c ",") s1 (fun t2 s2 =>
  opt (fun c => Ascii.eqb c ".") s2 (fun t3 s3 =>
  star is_digit s3 (fun t4 s4 =>
  opt (fun c => eqb_ci c "k" || eqb_ci c "M") s4 (fun t5 s5 =>
  k (t1 ++ t2 ++ t3 ++ t4 ++ t5) s5))))).

(** [(\w+)\s+(Long|Short)\s+Liquidation:\s*(\$...)] *)
Definition match_body (s : string) : option groups :=
  plus is_word s (fun ticker s1 =>
  plus is_space s1 (fun _ s2 =>
  let after_direction direction s3 :=
    plus is_space s3 (fun _ s4 =>
    lit "Liquidation:" s4 (fun _ s5 =>
    star is_space s5 (fun _ s6 =>
    match_amount s6 (fun amount _ => Some (ticker, direction, amount))))) in
  or_else (lit "Long" s2 after_direction) (lit "Short" s2 after_direction))).

(** The whole pattern, anchored at the start of [s]: the optional
    [(?:\w+:)] is tried first, then left out. *)
Definition match_here (s : string) : option groups :=
  lit "#" s (fun _ s1 =>
  or_else
    (plus is_word s1 (fun _ s2 => lit ":" s2 (fun _ s3 => match_body s3)))
    (match_body s1)).

(** [re.search]: the first position where the pattern matches. *)
Fixpoint re_search (s : string) : option groups :=
  match match_here s with
  | Some g => Some g
  | None =>
      match s with
      | String _ s' => re_search s'
      | EmptyString => None
      end
  end.

(** [str.replace(c, '')] for a one-character [c]. *)
Fixpoint remove_char (c : ascii) (s : string) : string :=
  match s with
  | EmptyString => EmptyString
  | String a s' => if Ascii.eqb a c then remove_char c s' else String a (remove_char c s')
  end.

(** [s.endswith(c)] and [s[:-1]]. *)
Fixpoint endswith (c : ascii) (s : string) : bool :=
  match s with
  | EmptyString => false
  | String a EmptyString => Ascii.eqb a c
  | String _ s' => endswith c s'
  end.

Fixpoint drop_last (s : string) : string :=
  match s with
  | EmptyString => EmptyString
  | String _ EmptyString => EmptyString
  | String a s' => String a (drop_last s')
  end.

(** The value of a run of decimal digits, [None] if another character
    is met. *)
Fixpoint digits_value (acc : Z) (s : string) : option Z :=
  match s with
  | EmptyString => Some acc
  | String c s' =>
      if is_digit c
      then digits_value (acc * 10 + Z.of_N (N_of_ascii c - 48))%Z s'
      else None
  end.

(** The text before the first point, and the text after it. *)
Fixpoint split_point (s : string) : string * string :=
  match s with
  | EmptyString => (EmptyString, EmptyString)
  | String c s' =>
      if Ascii.eqb c "."
      then (EmptyString, s')
      else let (a, b) := split_point s' in (String c a, b)
  end.

(** [float(s)] on the texts [_parse_amount] hands it when called on the
    amount group of the pattern: digits with at most one point, and at
    least one digit.  [None] is [ValueError].  What else [float] reads
    (a sign, an exponent, underscores, blanks around, [inf], [nan]) is
    not modelled: the amount group holds none of them.  On a text with
    none of the characters those need ([float_plain] below) [py_float] is
    [float]; elsewhere only its [Some] answers are. *)
Definition py_float (s : string) : option Q :=
  let (ip, fp) := split_point s in
  match digits_value 0 ip, digits_value 0 fp with
  | Some i, Some f =>
      if ((String.length ip + String.length fp)%nat =? 0)%nat then None
      else
        let scale := Pos.pow 10 (Pos.of_nat (String.length fp)) in
        if (String.length fp =? 0)%nat then Some (inject_Z i)
        else Some ((i * Zpos scale + f) # scale)
  | _, _ => None
  end.

Definition _parse_amount (amount_str : string) : Q :=
  if String.eqb amount_str "" then 0%Q
  else
    let s := remove_char "," (remove_char "$" amount_str) in
    let '(multiplier, s) :=
      if endswith "k" s then (1000%Q, drop_last s)
      else if endswith "M" s then (1000000%Q, drop_last s)
      else (1%Q, s) in
    match py_float s with
    | Some v => (v * multiplier)%Q
    | None => 0%Q
    end.

(** The triple [(None, None, None)] is [None] here. *)
Definition parse_liquidation_message (message_text : string)
  : option (string * string * Q) :=
  if String.eqb message_text "" then None
  else
    match re_search message_text with
    | Some (ticker, direction, amount_str) =>
        Some (upper ticker, capitalize direction, _parse_amount amount_str)
    | None => None
    end.

Local Close Scope string_scope.

(** ** Detection state machine *)

Inductive monitor_state := IDLE | ACTIVE.

Record LiquidationMonitor := mkMonitor {
  state : monitor_state;
  active_since : option datetime;
  last_summary_sent : option datetime;
  last_known_speed : Q;
  prev_known_speed : Q;
  last_above_threshold_time : option datetime;
  active_period_events : list event
}.

(** [LiquidationMonitor.__init__] *)
Definition new_monitor : LiquidationMonitor := {|
  state := IDLE;
  active_since := None;
  last_summary_sent := None;
  last_known_speed := 0;
  prev_known_speed := 0;
  last_above_threshold_time := None;
  active_period_events := []
|}.

(** Assignments to the attributes of [self]. *)
Definition set_state (v : monitor_state) (m : LiquidationMonitor) :=
  mkMonitor v (active_since m) (last_summary_sent m) (last_known_speed m)
    (prev_known_speed m) (last_above_threshold_time m) (active_period_events m).
Definition set_active_since (v : option datetime) (m : LiquidationMonitor) :=
  mkMonitor (state m) v (last_summary_sent m) (last_known_speed m)
    (prev_known_speed m) (last_above_threshold_time m) (active_period_events m).
Definition set_last_summary_sent (v : option datetime) (m : LiquidationMonitor) :=
  mkMonitor (state m) (active_since m) v (last_known_speed m)
    (prev_known_speed m) (last_above_threshold_time m) (active_period_events m).
Definition set_last_known_speed (v : Q) (m : LiquidationMonitor) :=
  mkMonitor (state m) (active_since m) (last_summary_sent m) v
    (prev_known_speed m) (last_above_threshold_time m) (active_period_events m).
Definition set_prev_known_speed (v : Q) (m : LiquidationMonitor) :=
  mkMonitor (state m) (active_since m) (last_summary_sent m) (last_known_speed m)
    v (last_above_threshold_time m) (active_period_events m).
Definition set_last_above_threshold_time (v : option datetime) (m : LiquidationMonitor) :=
  mkMonitor (state m) (active_since m) (last_summary_sent m) (last_known_speed m)
    (prev_known_speed m) v (active_period_events m).
Definition set_active_period_events (v : list event) (m : LiquidationMonitor) :=
  mkMonitor (state m) (active_since m) (last_summary_sent m) (last_known_speed m)
    (prev_known_speed m) (last_above_threshold_time m) v.

(** *** Notifications *)

(** What the webhook answers to a [session.post]: a response that passes
    [raise_for_status], after which the clock reads [received], or an
    [aiohttp.ClientError]. *)
Inductive response := Posted (received : datetime) | ClientError.

Inductive title_kind := HighActivity | CriticalSpike.
Inductive bias_callout := LongFlush (share : Q) | ShortSqueeze (share : Q).

(** The embed of a summary, field by field instead of as formatted text. *)
Record summary_embed := mkSummary {
  sum_title : title_kind;
  sum_speed : Q;
  sum_acceleration : Q;
  sum_prev_speed : Q;
  sum_count : nat;
  sum_total_amount : Q;
  sum_avg_per_event : option Q;
  sum_dominance : list (string * Q);
  sum_bias : option bias_callout;
  sum_color : Z
}.

(** [not DISCORD_WEBHOOK_URL] *)
Definition webhook_missing (cfg : Config) : bool :=
  match DISCORD_WEBHOOK_URL cfg with
  | None => true
  | Some url => String.eqb url ""
  end.

(** [sorted(items, key=lambda item: item[1], reverse=True)]: stable. *)
Definition by_share_desc (a b : string * Q) : bool := Qle_bool (snd b) (snd a).

Definition build_summary (cfg : Config) (mt : metrics) (acceleration prev_speed : Q)
  : summary_embed :=
  let title :=
    if Qgeb acceleration (ACCELERATION_THRESHOLD cfg)
       && Qgeb (speed_usd_per_sec mt) (BASE_THRESHOLD_USD_PER_SEC cfg)
    then CriticalSpike else HighActivity in
  {| sum_title := title;
     sum_speed := speed_usd_per_sec mt;
     sum_acceleration := acceleration;
     sum_prev_speed := prev_speed;
     sum_count := total_count mt;
     sum_total_amount := total_amount mt;
     sum_avg_per_event :=
       if (0 <? total_count mt)%nat then Some (avg_event_amount mt) else None;
     sum_dominance := firstn 3 (sort_by by_share_desc (dominance_info mt));
     sum_bias :=
       if Qgeb (long_bias mt) (BIAS_THRESHOLD cfg) then Some (LongFlush (long_bias mt))
       else if Qgeb (short_bias mt) (BIAS_THRESHOLD cfg)
            then Some (ShortSqueeze (short_bias mt))
            else None;
     sum_color :=
       match title with CriticalSpike => 15844367%Z | HighActivity => 16776960%Z end |}.

(** Returns the monitor and the embeds posted to the webhook. *)
Definition _send_summary_notification (cfg : Config) (resp : response)
    (self : LiquidationMonitor) (mt : metrics) (acceleration prev_speed : Q)
  : LiquidationMonitor * list summary_embed :=
  if webhook_missing cfg then (self, [])
  else
    let embed := build_summary cfg mt acceleration prev_speed in
    match resp with
    | Posted received => (set_last_summary_sent (Some received) self, [embed])
    | ClientError => (self, [embed])
    end.

(** *** The evaluation step *)

(** A call either returns, with the monitor as it leaves it and the
    embeds it posted, or raises [TypeError] (a time attribute that is
    [None] where a [datetime] is needed) before it has changed anything.
    Other exceptions are outside the embedding: the [OverflowError] of
    [datetime] arithmetic that leaves the years 1 to 9999, and what a
    post raises that is not an [aiohttp.ClientError]. *)
Inductive outcome :=
| Done (m : LiquidationMonitor) (posted : list summary_embed)
| TypeError.

(** The cooldown test of the IDLE branch. *)
Definition cooldown_blocks (cfg : Config) (now : datetime) (self : LiquidationMonitor)
  : bool :=
  match last_summary_sent self with
  | Some sent =>
      Qltb (total_seconds (now - sent)) (of_int (SUMMARY_COOLDOWN_SECONDS cfg))
  | None => false
  end.

(** The events and the window the step measures the speed on. *)
Definition window_events (cfg : Config) (conn : db) (now : datetime)
    (self : LiquidationMonitor) : list event * Q :=
  match state self with
  | ACTIVE =>
      (active_period_events self,
       match active_since self with
       | Some since => total_seconds (now - since)
       | None => of_int (ANALYSIS_WINDOW_SECONDS cfg)
       end)
  | IDLE =>
      let time_window_start :=
        (now - timedelta_seconds (ANALYSIS_WINDOW_SECONDS cfg))%Z in
      (get_liquidations_in_timeframe now conn time_window_start (Some now),
       of_int (ANALYSIS_WINDOW_SECONDS cfg))
  end.

(** The speed the step compares with the threshold. *)
Definition current_speed (cfg : Config) (conn : db) (now : datetime)
    (self : LiquidationMonitor) : Q :=
  let (events, window_duration) := window_events cfg conn now self in
  speed_usd_per_sec (calculate_liquidation_metrics events window_duration).

(** [now] is the clock read on entry, [resp] the answer of the webhook
    should the step post a summary. *)
Definition check_and_transition (cfg : Config) (conn : db) (now : datetime)
    (resp : response) (self : LiquidationMonitor) : outcome :=
  let events := fst (window_events cfg conn now self) in
  let speed := current_speed cfg conn now self in
  match state self with
  | IDLE =>
      if Qgeb speed (BASE_THRESHOLD_USD_PER_SEC cfg) then
        if cooldown_blocks cfg now self then Done self []
        else
          let self := set_state ACTIVE self in
          let self := set_active_since (Some now) self in
          let self := set_active_period_events events self in
          let self := set_prev_known_speed (last_known_speed self) self in
          let self := set_last_above_threshold_time (Some now) self in
          Done (set_last_known_speed speed self) []
      else Done (set_last_known_speed speed self) []
  | ACTIVE =>
      if Qltb speed (BASE_THRESHOLD_USD_PER_SEC cfg) then
        match last_above_threshold_time self with
        | None => TypeError
        | Some above =>
            let grace_period_elapsed := total_seconds (now - above) in
            if Qgeb grace_period_elapsed
                 (of_int (ACTIVE_IDLE_TRANSITION_GRACE_PERIOD_SECONDS cfg))
            then
              match active_since self with
              | None => TypeError
              | Some since =>
                  let summary_metrics :=
                    calculate_liquidation_metrics (active_period_events self)
                      (total_seconds (now - since)) in
                  let acceleration :=
                    calculate_acceleration cfg (speed_usd_per_sec summary_metrics)
                      (prev_known_speed self) in
                  let (self, posted) :=
                    _send_summary_notification cfg resp self summary_metrics
                      acceleration (prev_known_speed self) in
                  let self := set_state IDLE self in
                  let self := set_active_since None self in
                  let self := set_active_period_events [] self in
                  let self := set_last_known_speed 0 self in
                  let self := set_prev_known_speed 0 self in
                  Done (set_last_known_speed speed self) posted
              end
            else Done (set_last_known_speed speed self) []
        end
      else
        let self := set_last_above_threshold_time (Some now) self in
        Done (set_last_known_speed speed self) []
  end.

(** *** Ingestion *)

Record message := mkMessage {
  msg_text : string;
  msg_date : datetime
}.

(** The embed of a single-event notification. *)
Record single_embed := mkSingle {
  single_event : event;
  single_color : Z
}.

(** Returns the table, the monitor and the single-event embeds posted.
    The answer of the webhook to such a post changes nothing here. *)
Definition process_message (cfg : Config) (conn : db) (msg : message)
    (monitor : LiquidationMonitor) : db * LiquidationMonitor * list single_embed :=
  match parse_liquidation_message (msg_text msg) with
  | None => (conn, monitor, [])
  | Some (ticker, direction, amount) =>
      if String.eqb ticker "" || String.eqb direction "" || Qeq_bool amount 0
      then (conn, monitor, [])
      else
        let now := msg_date msg in
        let conn := add_liquidation conn now ticker direction amount in
        let new_event := mkEvent now ticker direction amount in
        let monitor :=
          match state monitor with
          | ACTIVE =>
              set_active_period_events (active_period_events monitor ++ [new_event])
                monitor
          | IDLE => monitor
          end in
        let posted :=
          if Qgtb (SINGLE_EVENT_NOTIFICATION_THRESHOLD cfg) 0
             && Qgeb amount (SINGLE_EVENT_NOTIFICATION_THRESHOLD cfg)
             && negb (webhook_missing cfg)
          then [mkSingle new_event
                  (if String.eqb direction "Short" then 5763719%Z else 15548997%Z)]
          else [] in
        (conn, monitor, posted)
  end.

(** *** Runs of the program *)

(** What the two activity sources do to the table and the monitor, one
    at a time: the polling driver evaluates, the channel delivers a
    message. *)
Inductive action :=
| Evaluate (now : datetime) (resp : response)
| Deliver (msg : message).

(** An evaluation that raises leaves everything as it was (the polling
    loop logs the exception and goes on). *)
Definition run_action (cfg : Config) (st : db * LiquidationMonitor) (a : action)
  : db * LiquidationMonitor :=
  let (conn, monitor) := st in
  match a with
  | Evaluate now resp =>
      match check_and_transition cfg conn now resp monitor with
      | Done m _ => (conn, m)
      | TypeError => (conn, monitor)
      end
  | Deliver msg =>
      let '(conn', m, _) := process_message cfg conn msg monitor in (conn', m)
  end.

Definition run (cfg : Config) (acts : list action) : db * LiquidationMonitor :=
  fold_left (run_action cfg) acts (empty_db, new_monitor).

(** ** Quantities the properties are stated with *)

(** The amount liquidated on one ticker. *)
Definition ticker_total (t : string) (events : list event) : Q :=
  sum_amounts (fun e => String.eqb (ev_ticker e) t) events.

(** The sum of the values of a mapping. *)
Definition sum_values (d : list (string * Q)) : Q :=
  fold_right (fun kv acc => snd kv + acc) 0 d.

(** The primary-key discipline of the table: rowids are distinct and none
    is above the AUTOINCREMENT counter. *)
Definition store_ok (conn : db) : Prop :=
  NoDup (map row_id (db_rows conn)) /\
  Forall (fun r => (row_id r <= db_seq conn)%Z) (db_rows conn).

(** The invariant of the store: the key discipline and the size bound. *)
Definition store_inv (conn : db) : Prop :=
  store_ok conn /\ (List.length (db_rows conn) <= LIQUIDATION_HISTORY_LIMIT)%nat.

(** An append, as the arguments of one [add_liquidation] call. *)
Definition append := (datetime * string * string * Q)%type.

Definition add_all (conn : db) (appends : list append) : db :=
  fold_left (fun c a =>
    let '(timestamp, ticker, direction, amount) := a in
    add_liquidation c timestamp ticker direction amount) appends conn.

(** The stored events with [start_time <= timestamp <= end_time], in
    table order: what a range query is to return, up to order. *)
Definition stored_events_between (start_time end_time : datetime) (rows : list row)
  : list event :=
  flat_map (fun r =>
    match row_timestamp r with
    | TsIso t =>
        if ((start_time <=? t)%Z && (t <=? end_time)%Z)%bool
        then [mkEvent t (row_ticker r) (row_direction r) (row_amount r)]
        else []
    | TsJunk _ => []
    end) rows.

Definition ascending_by_timestamp (events : list event) : Prop :=
  StronglySorted (fun a b => (ev_timestamp a <= ev_timestamp b)%Z) events.

(** The rows of the table once the new row is inserted, before the trim. *)
Definition inserted_rows (conn : db) (timestamp : datetime)
    (ticker direction : string) (amount : Q) : list row :=
  db_rows conn
  ++ [mkRow (db_seq conn + 1) (TsIso timestamp) ticker direction amount].

(** [amount_str.replace('$', '').replace(',', '')] *)
Definition strip_amount (s : string) : string :=
  remove_char "," (remove_char "$" s).

(** Does [c] occur in [s]? *)
Fixpoint has_char (c : ascii) (s : string) : bool :=
  match s with
  | EmptyString => false
  | String x s' => Ascii.eqb x c || has_char c s'
  end.

(** An ACTIVE monitor has its two time attributes set. *)
Definition monitor_ok (m : LiquidationMonitor) : Prop :=
  state m = ACTIVE ->
  (exists since, active_since m = Some since) /\
  (exists above, last_above_threshold_time m = Some above).

(** Do all characters of [s] satisfy [p]? *)
Fixpoint all_chars (p : ascii -> bool) (s : string) : bool :=
  match s with
  | EmptyString => true
  | String c s' => p c && all_chars p s'
  end.

(** Two texts equal under [re.IGNORECASE]. *)
Definition same_ci (a b : string) : Prop :=
  string_map to_lower a = string_map to_lower b.

(** The characters the amount group of the pattern can hold. *)
Definition amount_char (c : ascii) : bool :=
  is_digit c || Ascii.eqb c "$" || Ascii.eqb c "," || Ascii.eqb c "."
  || eqb_ci c "k" || eqb_ci c "M".

(** A character of ASCII. *)
Definition is_ascii (c : ascii) : bool := (N_of_ascii c <? 128)%N.

(** The characters without which [float] reads nothing but digits and a
    point: a blank to strip, a sign, the underscore between digits, the
    [e] of an exponent, and the [n] that [inf], [infinity] and [nan] all
    have, in either case. *)
Definition float_extra (c : ascii) : bool :=
  is_space c || Ascii.eqb c "+" || Ascii.eqb c "-" || Ascii.eqb c "_"
  || eqb_ci c "e" || eqb_ci c "n".

(** A character of a text on which [py_float] is [float]. *)
Definition float_plain (c : ascii) : bool := is_ascii c && negb (float_extra c).

(** A ticker as [parse_liquidation_message] returns it: word characters,
    none of them a lower-case letter. *)
Definition ticker_char (c : ascii) : bool := is_word c && negb (is_lower c).

(** A row as [process_message] writes it, and an event as it puts it in
    the buffer. *)
Definition row_ok (r : row) : Prop :=
  (exists t, row_timestamp r = TsIso t) /\ 0 < row_amount r /\
  (row_direction r = "Long"%string \/ row_direction r = "Short"%string).

Definition event_ok (e : event) : Prop :=
  0 < ev_amount e /\
  (ev_direction e = "Long"%string \/ ev_direction e = "Short"%string).

(** What holds of the table and the monitor all along a run. *)
Definition run_inv (st : db * LiquidationMonitor) : Prop :=
  store_inv (fst st) /\
  Forall row_ok (db_rows (fst st)) /\
  Forall event_ok (active_period_events (snd st)) /\
  monitor_ok (snd st) /\
  (state (snd st) = IDLE ->
   active_period_events (snd st) = [] /\ active_since (snd st) = None /\
   prev_known_speed (snd st) = 0).

(** The warm start of [main]: the fetched history, newest first, is replayed
    oldest first, messages without text left out. *)
Definition warm_start (cfg : Config) (conn : db) (history : list message)
    (monitor : LiquidationMonitor) : db * LiquidationMonitor :=
  fold_left (fun st msg =>
    if String.eqb (msg_text msg) "" then st
    else let '(conn', m, _) := process_message cfg (fst st) msg (snd st) in
         (conn', m))
    (rev history) (conn, monitor).

(** ** Sample runs *)

(** A first message, dated one second after the epoch, and a second one,
    dated second 392. *)
Definition first_message : message :=
  mkMessage "#BTC Long Liquidation: $7M" (timedelta_seconds 1).
Definition second_message : message :=
  mkMessage "#ETH Short Liquidation: $6,500,000" (timedelta_seconds 392).

(** From the start of the program: the first message comes in, the
    evaluation at second 2 finds 7,000,000 / 300 USD/sec and enters ACTIVE,
    the evaluation at second 352 finds 7,000,000 / 350 = 20000 USD/sec and
    moves the grace anchor. *)
Definition burst_run : list action :=
  [Deliver first_message;
   Evaluate (timedelta_seconds 2) ClientError;
   Evaluate (timedelta_seconds 352) ClientError].

Definition burst_db : db := fst (run default_config burst_run).
Definition active_monitor : LiquidationMonitor := snd (run default_config burst_run).

(** The run goes on: the evaluation at second 392 leaves ACTIVE and its
    summary is delivered, then the second message comes in. *)
Definition cooling_run : list action :=
  burst_run
  ++ [Evaluate (timedelta_seconds 392) (Posted (timedelta_seconds 392 + 1)%Z);
      Deliver second_message].

Definition second_burst_db : db := fst (run default_config cooling_run).
Definition cooling_monitor : LiquidationMonitor :=
  snd (run default_config cooling_run).

(** A table filled to the limit: 200 events dated second 10. *)
Definition full_db : db :=
  add_all empty_db
    (repeat (timedelta_seconds 10, "BTC"%string, "Long"%string, 1)
       LIQUIDATION_HISTORY_LIMIT).

(** The monitor of [burst_run] right after it entered ACTIVE at second 2. *)
Definition entered_monitor : LiquidationMonitor :=
  snd (run default_config
         [Deliver first_message; Evaluate (timedelta_seconds 2) ClientError]).

(** * Properties *)

(** ** Comparisons *)

Lemma Qgtb_true (a b : Q) : Qgtb a b = true <-> b < a.
Proof.
  unfold Qgtb. rewrite negb_true_iff. split; intros H.
  - apply Qnot_le_lt. intros Hle. apply Qle_bool_iff in Hle. congruence.
  - destruct (Qle_bool a b) eqn:E; [|reflexivity].
    apply Qle_bool_iff in E. exfalso. exact (Qlt_not_le _ _ H E).
Qed.

Lemma Qgtb_false (a b : Q) : Qgtb a b = false <-> a <= b.
Proof.
  unfold Qgtb. rewrite negb_false_iff. apply Qle_bool_iff.
Qed.

Lemma Qgeb_true (a b : Q) : Qgeb a b = true <-> b <= a.
Proof. unfold Qgeb. apply Qle_bool_iff. Qed.

Lemma Qgeb_false (a b : Q) : Qgeb a b = false <-> a < b.
Proof.
  unfold Qgeb. split; intros H.
  - apply Qnot_le_lt. intros Hle. apply Qle_bool_iff in Hle. congruence.
  - destruct (Qle_bool b a) eqn:E; [|reflexivity].
    apply Qle_bool_iff in E. exfalso. exact (Qlt_not_le _ _ H E).
Qed.

Lemma Qltb_true (a b : Q) : Qltb a b = true <-> a < b.
Proof. unfold Qltb. exact (Qgtb_true b a). Qed.

Lemma Qltb_false (a b : Q) : Qltb a b = false <-> b <= a.
Proof. unfold Qltb. exact (Qgtb_false b a). Qed.

Lemma Qgtb_compat (a a' b : Q) : a == a' -> Qgtb a b = Qgtb a' b.
Proof.
  intros E. destruct (Qgtb a' b) eqn:H.
  - apply Qgtb_true. apply Qgtb_true in H. now rewrite E.
  - apply Qgtb_false. apply Qgtb_false in H. now rewrite E.
Qed.

(** ** Acceleration heuristic *)

(** C4: the ratio [current_speed / prev_speed] above the 500 USD/sec floor,
    the configured cap at or below the floor when the current speed is
    positive, and 1 otherwise; the three values the specification lists. *)
Theorem calculate_acceleration_cases (cfg : Config) (current_speed prev_speed : Q) :
  (500 < prev_speed ->
     calculate_acceleration cfg current_speed prev_speed = current_speed / prev_speed) /\
  (prev_speed <= 500 -> 0 < current_speed ->
     calculate_acceleration cfg current_speed prev_speed = ACCELERATION_THRESHOLD cfg) /\
  (prev_speed <= 500 -> current_speed <= 0 ->
     calculate_acceleration cfg current_speed prev_speed = 1) /\
  calculate_acceleration cfg 1200 600 == 2 /\
  calculate_acceleration cfg 100 100 = ACCELERATION_THRESHOLD cfg /\
  calculate_acceleration cfg 0 0 = 1 /\
  ACCELERATION_THRESHOLD default_config = 3.
Proof.
  unfold calculate_acceleration.
  repeat split; try reflexivity.
  - intros H. apply Qgtb_true in H. now rewrite H.
  - intros Hp Hc. apply Qgtb_false in Hp. apply Qgtb_true in Hc.
    now rewrite Hp, Hc.
  - intros Hp Hc. apply Qgtb_false in Hp. apply Qgtb_false in Hc.
    now rewrite Hp, Hc.
Qed.

Lemma calculate_acceleration_cases_witness :
  calculate_acceleration default_config 40000 1000 = 40000 / 1000 /\
  calculate_acceleration default_config 250 100 = 3 /\
  calculate_acceleration default_config 0 100 = 1.
Proof.
  destruct (calculate_acceleration_cases default_config 40000 1000) as [H1 _].
  destruct (calculate_acceleration_cases default_config 250 100) as [_ [H2 _]].
  destruct (calculate_acceleration_cases default_config 0 100) as [_ [_ [H3 _]]].
  split; [|split].
  - apply H1. reflexivity.
  - apply H2; [discriminate | reflexivity].
  - apply H3; discriminate.
Defined.

(** ** Sums of amounts *)

Lemma fold_sum_shift (p : event -> bool) (events : list event) (acc : Q) :
  fold_left (fun a e => if p e then a + ev_amount e else a) events acc
  == acc + sum_amounts p events.
Proof.
  unfold sum_amounts. revert acc.
  induction events as [|e events IH]; intros acc; simpl.
  - ring.
  - rewrite (IH (if p e then acc + ev_amount e else acc)).
    rewrite (IH (if p e then 0 + ev_amount e else 0)).
    destruct (p e); ring.
Qed.

Lemma sum_amounts_cons (p : event -> bool) (e : event) (events : list event) :
  sum_amounts p (e :: events)
  == (if p e then ev_amount e else 0) + sum_amounts p events.
Proof.
  unfold sum_amounts at 1. simpl. rewrite fold_sum_shift.
  destruct (p e); ring.
Qed.

Lemma sum_amounts_nil (p : event -> bool) : sum_amounts p [] = 0.
Proof. reflexivity. Qed.

(** The directional amount is the Long amount plus the Short amount. *)
Lemma directional_split (events : list event) :
  sum_amounts is_directional events
  == sum_amounts is_long events + sum_amounts is_short events.
Proof.
  induction events as [|e events IH].
  - reflexivity.
  - rewrite !sum_amounts_cons, IH.
    unfold is_directional, is_long, is_short.
    destruct (String.eqb_spec (ev_direction e) "Long") as [E|E]; simpl.
    + rewrite E. simpl. ring.
    + destruct (String.eqb (ev_direction e) "Short"); ring.
Qed.

(** ** Directional bias *)

(** C6: with a positive directional amount, [long_bias] is the Long share
    of it and [short_bias] is its complement, so the two sum to 1; with no
    directional amount both are exactly 0. *)
Theorem bias_complementary (events : list event) (window_seconds : Q) :
  let m := calculate_liquidation_metrics events window_seconds in
  let long_amount := sum_amounts is_long events in
  let short_amount := sum_amounts is_short events in
  (0 < long_amount + short_amount ->
     long_bias m == long_amount / (long_amount + short_amount) /\
     short_bias m == 1 - long_bias m /\
     long_bias m + short_bias m == 1) /\
  (~ 0 < long_amount + short_amount ->
     long_bias m = 0 /\ short_bias m = 0 /\ ~ long_bias m + short_bias m == 1).
Proof.
  intros m long_amount short_amount.
  pose proof (directional_split events) as Hsplit.
  fold long_amount short_amount in Hsplit.
  subst m. unfold calculate_liquidation_metrics. simpl.
  rewrite (Qgtb_compat _ _ 0 Hsplit).
  split.
  - intros Hpos. apply Qgtb_true in Hpos. rewrite Hpos.
    fold long_amount. rewrite Hsplit.
    split; [reflexivity|]. split; [reflexivity|]. ring.
  - intros Hnone.
    assert (Qgtb (long_amount + short_amount) 0 = false) as ->.
    { apply Qgtb_false. now apply Qnot_lt_le. }
    repeat split. discriminate.
Qed.

Lemma bias_complementary_witness :
  let events := [mkEvent 0%Z "BTC" "Long" 300; mkEvent 1%Z "ETH" "Short" 100] in
  long_bias (calculate_liquidation_metrics events 300)
  + short_bias (calculate_liquidation_metrics events 300) == 1 /\
  long_bias (calculate_liquidation_metrics [] 300) = 0 /\
  short_bias (calculate_liquidation_metrics [] 300) = 0.
Proof.
  intros events.
  destruct (bias_complementary events 300) as [H1 _].
  destruct (bias_complementary [] 300) as [_ H2].
  split.
  - apply H1. reflexivity.
  - assert (~ 0 < sum_amounts is_long [] + sum_amounts is_short []) as Hnone
      by discriminate.
    destruct (H2 Hnone) as [Hl [Hs _]]. split; assumption.
Defined.

(** ** Dominance *)

Lemma dict_get_add (t t' : string) (a : Q) (d : list (string * Q)) :
  dict_get t (dict_add t' a d) =
  if String.eqb t' t
  then Some (match dict_get t d with Some v => v + a | None => 0 + a end)
  else dict_get t d.
Proof.
  induction d as [|[k v] d IH]; simpl.
  - destruct (String.eqb t' t); reflexivity.
  - destruct (String.eqb_spec k t') as [E|E]; simpl.
    + subst k. destruct (String.eqb t' t); reflexivity.
    + rewrite IH. destruct (String.eqb_spec t' t) as [E'|E'].
      * subst t'. apply String.eqb_neq in E. now rewrite E.
      * reflexivity.
Qed.

Lemma dict_add_keys (t : string) (a : Q) (d : list (string * Q)) :
  map fst (dict_add t a d) =
  if existsb (String.eqb t) (map fst d) then map fst d else map fst d ++ [t].
Proof.
  induction d as [|[k v] d IH]; simpl.
  - reflexivity.
  - rewrite (String.eqb_sym t k).
    destruct (String.eqb k t); simpl.
    + reflexivity.
    + rewrite IH. now destruct (existsb (String.eqb t) (map fst d)).
Qed.

Lemma dict_add_NoDup (t : string) (a : Q) (d : list (string * Q)) :
  NoDup (map fst d) -> NoDup (map fst (dict_add t a d)).
Proof.
  intros H. rewrite dict_add_keys.
  destruct (existsb (String.eqb t) (map fst d)) eqn:E; [assumption|].
  apply NoDup_app; [assumption | constructor; [intros [] | constructor] |].
  intros k Hk [Hkt|[]]. subst k.
  assert (existsb (String.eqb t) (map fst d) = true); [|congruence].
  apply existsb_exists. exists t. split; [assumption | apply String.eqb_refl].
Qed.

Lemma sum_values_add (t : string) (a : Q) (d : list (string * Q)) :
  sum_values (dict_add t a d) == sum_values d + a.
Proof.
  induction d as [|[k v] d IH]; simpl.
  - ring.
  - destruct (String.eqb k t); simpl.
    + ring.
    + fold (sum_values (dict_add t a d)). rewrite IH.
      fold (sum_values d). ring.
Qed.

(** What the accumulation loop leaves in the mapping, started from any
    mapping [d]. *)
Lemma accumulate_get (t : string) (events : list event) (d : list (string * Q)) :
  let d' := fold_left (fun d e => dict_add (ev_ticker e) (ev_amount e) d) events d in
  match dict_get t d' with
  | Some v =>
      (exists v0, dict_get t d = Some v0 /\ v == v0 + ticker_total t events) \/
      (dict_get t d = None /\ In t (map ev_ticker events) /\
       v == ticker_total t events)
  | None => dict_get t d = None /\ ~ In t (map ev_ticker events)
  end.
Proof.
  revert d. induction events as [|e events IH]; intros d; simpl.
  - destruct (dict_get t d) as [v|] eqn:E.
    + left. exists v. split; [reflexivity|]. unfold ticker_total, sum_amounts. simpl. ring.
    + split; [reflexivity | tauto].
  - specialize (IH (dict_add (ev_ticker e) (ev_amount e) d)). simpl in IH.
    rewrite dict_get_add in IH.
    destruct (dict_get t (fold_left _ events _)) as [v|].
    + unfold ticker_total in *. 
      destruct (String.eqb_spec (ev_ticker e) t) as [E|E].
      * destruct IH as [[v0 [H0 Hv]]|[H0 _]]; [|discriminate].
        injection H0 as <-.
        destruct (dict_get t d) as [w|].
        -- left. exists w. split; [reflexivity|].
           rewrite Hv, sum_amounts_cons.
           apply String.eqb_eq in E. rewrite E. ring.
        -- right. split; [reflexivity|]. split; [now left|].
           rewrite Hv, sum_amounts_cons.
           apply String.eqb_eq in E. rewrite E. ring.
      * assert (sum_amounts (fun e0 => String.eqb (ev_ticker e0) t) (e :: events)
                == sum_amounts (fun e0 => String.eqb (ev_ticker e0) t) events) as Hc.
        { rewrite sum_amounts_cons. apply String.eqb_neq in E. rewrite E. ring. }
        destruct IH as [[v0 [H0 Hv]]|[H0 [Hin Hv]]].
        -- left. exists v0. split; [assumption|]. now rewrite Hc.
        -- right. split; [assumption|]. split; [now right|]. now rewrite Hc.
    + destruct (String.eqb_spec (ev_ticker e) t) as [E|E].
      * destruct IH as [H0 _]. discriminate.
      * destruct IH as [H0 Hin]. split; [assumption|].
        intros [H|H]; [contradiction | exact (Hin H)].
Qed.

Lemma accumulate_NoDup (events : list event) (d : list (string * Q)) :
  NoDup (map fst d) ->
  NoDup (map fst
    (fold_left (fun d e => dict_add (ev_ticker e) (ev_amount e) d) events d)).
Proof.
  revert d. induction events as [|e events IH]; intros d H; simpl.
  - assumption.
  - apply IH. now apply dict_add_NoDup.
Qed.

Lemma accumulate_sum (events : list event) (d : list (string * Q)) :
  sum_values
    (fold_left (fun d e => dict_add (ev_ticker e) (ev_amount e) d) events d)
  == sum_values d + sum_amounts (fun _ => true) events.
Proof.
  revert d. induction events as [|e events IH]; intros d; simpl.
  - unfold sum_amounts. simpl. ring.
  - rewrite IH, sum_values_add, sum_amounts_cons. ring.
Qed.

Lemma dict_get_scale (t : string) (c : Q) (d : list (string * Q)) :
  dict_get t (map (fun ta => (fst ta, snd ta / c)) d) =
  option_map (fun v => v / c) (dict_get t d).
Proof.
  induction d as [|[k v] d IH]; simpl.
  - reflexivity.
  - destruct (String.eqb k t); [reflexivity | assumption].
Qed.

Lemma sum_values_scale (c : Q) (d : list (string * Q)) :
  sum_values (map (fun ta => (fst ta, snd ta / c)) d) == sum_values d / c.
Proof.
  induction d as [|[k v] d IH]; simpl.
  - unfold Qdiv. ring.
  - fold (sum_values (map (fun ta => (fst ta, snd ta / c)) d)).
    fold (sum_values d). rewrite IH. unfold Qdiv. ring.
Qed.

(** C5: with a positive total every ticker met in the events is mapped to
    its share of the total, no other key is in the mapping, no key is
    repeated and the shares sum to 1; with a total of 0 the mapping is
    empty. *)
Theorem dominance_shares (events : list event) (window_seconds : Q) :
  let m := calculate_liquidation_metrics events window_seconds in
  (0 < total_amount m ->
     (forall t, In t (map ev_ticker events) ->
        exists v, dict_get t (dominance_info m) = Some v /\
                  v == ticker_total t events / total_amount m) /\
     (forall t, ~ In t (map ev_ticker events) ->
        dict_get t (dominance_info m) = None) /\
     NoDup (map fst (dominance_info m)) /\
     sum_values (dominance_info m) == 1) /\
  (total_amount m == 0 -> dominance_info m = []).
Proof.
  intros m. subst m. unfold calculate_liquidation_metrics. simpl.
  set (total := sum_amounts (fun _ => true) events).
  split.
  - intros Hpos. pose proof Hpos as Hb. apply Qgtb_true in Hb. rewrite Hb.
    assert (~ total == 0) as Hnz.
    { intros E. rewrite E in Hpos. discriminate. }
    repeat split.
    + intros t Hin. rewrite dict_get_scale.
      pose proof (accumulate_get t events []) as H. simpl in H.
      unfold ticker_amounts.
      destruct (dict_get t (fold_left _ events [])) as [v|].
      * exists (v / total). split; [reflexivity|].
        destruct H as [[v0 [H0 _]]|[_ [_ Hv]]]; [discriminate|].
        now rewrite Hv.
      * destruct H as [_ H]. contradiction.
    + intros t Hnin. rewrite dict_get_scale.
      pose proof (accumulate_get t events []) as H. simpl in H.
      unfold ticker_amounts.
      destruct (dict_get t (fold_left _ events [])) as [v|]; [|reflexivity].
      destruct H as [[v0 [H0 _]]|[_ [Hin _]]]; [discriminate | contradiction].
    + rewrite map_map. simpl.
      apply (accumulate_NoDup events []). constructor.
    + rewrite sum_values_scale. unfold ticker_amounts.
      rewrite accumulate_sum. fold total. simpl. field. exact Hnz.
  - intros Hz.
    assert (Qgtb total 0 = false) as ->; [|reflexivity].
    apply Qgtb_false. rewrite Hz. discriminate.
Qed.

Lemma dominance_shares_witness :
  let events :=
    [mkEvent 0%Z "BTC" "Long" 300; mkEvent 1%Z "ETH" "Short" 100;
     mkEvent 2%Z "BTC" "Short" 100] in
  sum_values (dominance_info (calculate_liquidation_metrics events 300)) == 1 /\
  dominance_info (calculate_liquidation_metrics [] 300) = [].
Proof.
  intros events.
  destruct (dominance_shares events 300) as [H1 _].
  destruct (dominance_shares [] 300) as [_ H2].
  split.
  - apply H1. reflexivity.
  - apply H2. reflexivity.
Defined.

(** ** Sorting *)

Section SortingFacts.
Variable A : Type.
Variable leb : A -> A -> bool.
Hypothesis leb_total : forall a b, leb a b = true \/ leb b a = true.
Hypothesis leb_trans : forall a b c, leb a b = true -> leb b c = true -> leb a c = true.

Lemma insert_sorted_perm (x : A) (l : list A) :
  Permutation (insert_sorted leb x l) (x :: l).
Proof.
  induction l as [|y l IH]; simpl.
  - reflexivity.
  - destruct (leb x y).
    + reflexivity.
    + rewrite IH. apply perm_swap.
Qed.

Lemma sort_by_perm (l : list A) : Permutation (sort_by leb l) l.
Proof.
  induction l as [|x l IH]; simpl.
  - reflexivity.
  - rewrite insert_sorted_perm. now apply perm_skip.
Qed.

Lemma insert_sorted_sorted (x : A) (l : list A) :
  StronglySorted (fun a b => leb a b = true) l ->
  StronglySorted (fun a b => leb a b = true) (insert_sorted leb x l).
Proof.
  induction 1 as [|y l Hs IH Hy]; simpl.
  - repeat constructor.
  - destruct (leb x y) eqn:E.
    + constructor; [now constructor|].
      constructor; [assumption|].
      rewrite Forall_forall in *. intros z Hz. eauto.
    + constructor; [assumption|].
      rewrite Forall_forall in *. intros z Hz.
      apply (Permutation_in _ (insert_sorted_perm x l)) in Hz.
      destruct Hz as [<-|Hz]; [|auto].
      destruct (leb_total x y) as [H|H]; [congruence | assumption].
Qed.

Lemma sort_by_sorted (l : list A) :
  StronglySorted (fun a b => leb a b = true) (sort_by leb l).
Proof.
  induction l as [|x l IH]; simpl.
  - constructor.
  - now apply insert_sorted_sorted.
Qed.

Lemma sorted_app_le (l1 l2 : list A) :
  StronglySorted (fun a b => leb a b = true) (l1 ++ l2) ->
  forall a b, In a l1 -> In b l2 -> leb a b = true.
Proof.
  induction l1 as [|x l1 IH]; simpl; intros Hs a b Ha Hb.
  - contradiction.
  - inversion Hs as [|? ? Hs' Hx]; subst.
    destruct Ha as [<-|Ha].
    + rewrite Forall_forall in Hx. apply Hx, in_or_app. now right.
    + now apply IH.
Qed.
End SortingFacts.

Arguments sort_by_perm {A} leb l.
Arguments sort_by_sorted {A} leb _ _ l.
Arguments sorted_app_le {A} leb l1 l2 _ a b _ _.

Lemma newer_eqb_total (a b : row) : newer_eqb a b = true \/ newer_eqb b a = true.
Proof.
  unfold newer_eqb.
  destruct (Z.ltb_spec (ts_key (row_timestamp b)) (ts_key (row_timestamp a)));
    [now left|].
  destruct (Z.ltb_spec (ts_key (row_timestamp a)) (ts_key (row_timestamp b)));
    [now right|].
  assert (ts_key (row_timestamp a) = ts_key (row_timestamp b)) as E by lia.
  rewrite E, Z.eqb_refl. simpl.
  destruct (Z.leb_spec (row_id b) (row_id a)); [now left|].
  right. apply Z.leb_le. lia.
Qed.

Lemma newer_eqb_trans (a b c : row) :
  newer_eqb a b = true -> newer_eqb b c = true -> newer_eqb a c = true.
Proof.
  unfold newer_eqb.
  rewrite !orb_true_iff, !andb_true_iff, !Z.ltb_lt, !Z.eqb_eq, !Z.leb_le. lia.
Qed.

Lemma older_eqb_total (a b : row) : older_eqb a b = true \/ older_eqb b a = true.
Proof. unfold older_eqb. rewrite !Z.leb_le. lia. Qed.

Lemma older_eqb_trans (a b c : row) :
  older_eqb a b = true -> older_eqb b c = true -> older_eqb a c = true.
Proof. unfold older_eqb. rewrite !Z.leb_le. lia. Qed.

(** ** Event store: append with trim *)

Lemma same_id_same_row (rows : list row) (a b : row) :
  NoDup (map row_id rows) -> In a rows -> In b rows -> row_id a = row_id b -> a = b.
Proof.
  induction rows as [|r rows IH]; simpl; intros Hnd Ha Hb E.
  - contradiction.
  - inversion Hnd as [|? ? Hnotin Hnd']; subst.
    destruct Ha as [<-|Ha], Hb as [<-|Hb].
    + reflexivity.
    + exfalso. apply Hnotin. rewrite E. now apply in_map.
    + exfalso. apply Hnotin. rewrite <- E. now apply in_map.
    + now apply IH.
Qed.

Lemma id_in_spec (ids : list Z) (r : row) :
  id_in ids r = true <-> In (row_id r) ids.
Proof.
  unfold id_in. rewrite existsb_exists. split.
  - intros [i [Hi E]]. apply Z.eqb_eq in E. now rewrite E.
  - intros H. exists (row_id r). split; [assumption | apply Z.eqb_refl].
Qed.

(** With distinct rowids, the rows the [DELETE] keeps are the first [n]
    rows of the descending order. *)
Lemma kept_iff_recent (n : nat) (rows : list row) (r : row) :
  NoDup (map row_id rows) -> In r rows ->
  (id_in (select_recent_ids n rows) r = true
   <-> In r (firstn n (sort_by newer_eqb rows))).
Proof.
  intros Hnd Hr. rewrite id_in_spec. unfold select_recent_ids. split.
  - intros H. apply in_map_iff in H. destruct H as [r' [E Hr']].
    assert (In r' rows) as Hin.
    { apply (Permutation_in _ (sort_by_perm newer_eqb rows)).
      rewrite <- (firstn_skipn n). apply in_or_app. now left. }
    now rewrite (same_id_same_row rows r r' Hnd Hr Hin (eq_sym E)).
  - intros H. now apply in_map.
Qed.

Lemma NoDup_map_filter (p : row -> bool) (rows : list row) :
  NoDup (map row_id rows) -> NoDup (map row_id (filter p rows)).
Proof.
  induction rows as [|r rows IH]; simpl; intros Hnd.
  - constructor.
  - inversion Hnd as [|? ? Hnotin Hnd']; subst.
    destruct (p r); simpl; [|auto].
    constructor; [|auto].
    intros H. apply Hnotin. apply in_map_iff in H. destruct H as [x [E Hx]].
    apply filter_In in Hx. rewrite <- E. apply in_map. tauto.
Qed.

Lemma kept_perm_recent (n : nat) (rows : list row) :
  NoDup (map row_id rows) ->
  Permutation (filter (id_in (select_recent_ids n rows)) rows)
              (firstn n (sort_by newer_eqb rows)).
Proof.
  intros Hnd.
  assert (NoDup rows) as Hrows by exact (NoDup_map_inv _ _ Hnd).
  assert (NoDup (sort_by newer_eqb rows)) as Hsorted.
  { apply (Permutation_NoDup (Permutation_sym (sort_by_perm newer_eqb rows))).
    assumption. }
  apply NoDup_Permutation.
  - now apply NoDup_filter.
  - rewrite <- (firstn_skipn n) in Hsorted. exact (NoDup_app_remove_r _ _ Hsorted).
  - intros r. rewrite filter_In. split.
    + intros [Hr Hk]. now apply (kept_iff_recent n rows r Hnd Hr).
    + intros H.
      assert (In r rows) as Hr.
      { apply (Permutation_in _ (sort_by_perm newer_eqb rows)).
        rewrite <- (firstn_skipn n). apply in_or_app. now left. }
      split; [assumption|]. now apply (kept_iff_recent n rows r Hnd Hr).
Qed.

Lemma inserted_rows_NoDup (conn : db) timestamp ticker direction amount :
  store_ok conn ->
  NoDup (map row_id (inserted_rows conn timestamp ticker direction amount)).
Proof.
  intros [Hnd Hle]. unfold inserted_rows. rewrite map_app. simpl.
  apply NoDup_app; [assumption | constructor; [intros [] | constructor] |].
  intros i Hi [E|[]]. subst i.
  apply in_map_iff in Hi. destruct Hi as [r [E Hr]].
  rewrite Forall_forall in Hle. specialize (Hle r Hr). lia.
Qed.

Lemma add_liquidation_ok (conn : db) timestamp ticker direction amount :
  store_ok conn -> store_ok (add_liquidation conn timestamp ticker direction amount).
Proof.
  intros Hok. pose proof (inserted_rows_NoDup conn timestamp ticker direction amount Hok) as Hnd.
  destruct Hok as [_ Hle]. unfold add_liquidation, store_ok. simpl.
  fold (inserted_rows conn timestamp ticker direction amount).
  split.
  - now apply NoDup_map_filter.
  - rewrite Forall_forall in *. intros r Hr. apply filter_In in Hr.
    destruct Hr as [Hr _]. unfold inserted_rows in Hr.
    apply in_app_or in Hr. destruct Hr as [Hr|[<-|[]]].
    + specialize (Hle r Hr). lia.
    + simpl. lia.
Qed.

Lemma add_liquidation_length (conn : db) timestamp ticker direction amount :
  store_ok conn ->
  List.length (db_rows (add_liquidation conn timestamp ticker direction amount))
  = Nat.min LIQUIDATION_HISTORY_LIMIT (S (List.length (db_rows conn))).
Proof.
  intros Hok. pose proof (inserted_rows_NoDup conn timestamp ticker direction amount Hok) as Hnd.
  unfold add_liquidation. cbn [db_rows].
  fold (inserted_rows conn timestamp ticker direction amount).
  rewrite (Permutation_length (kept_perm_recent _ _ Hnd)).
  rewrite length_firstn.
  rewrite (Permutation_length (sort_by_perm newer_eqb _)).
  unfold inserted_rows. rewrite length_app. cbn [List.length].
  now rewrite Nat.add_1_r.
Qed.

Lemma add_all_inv (appends : list append) (conn : db) :
  store_inv conn -> store_inv (add_all conn appends).
Proof.
  revert conn. induction appends as [|[[[ts tk] dir] amt] appends IH];
    intros conn Hinv; simpl.
  - assumption.
  - apply IH. destruct Hinv as [Hok _]. split.
    + now apply add_liquidation_ok.
    + rewrite add_liquidation_length by assumption. apply Nat.le_min_l.
Qed.

(** C8: the empty table satisfies the invariant (distinct rowids, at most
    [LIQUIDATION_HISTORY_LIMIT] = 200 rows), every sequence of appends
    keeps it, and one append on a table with distinct rowids leaves the
    200 most recent rows by (timestamp, id) descending of the table with the
    new row inserted: it keeps [min 200 n] of the [n] rows, only rows that
    were there, and every row it keeps comes before every row it deletes in
    that order. *)
Theorem store_bounded :
  LIQUIDATION_HISTORY_LIMIT = 200%nat /\
  store_inv empty_db /\
  (forall appends, store_inv (add_all empty_db appends)) /\
  (forall conn timestamp ticker direction amount,
     store_ok conn ->
     let conn' := add_liquidation conn timestamp ticker direction amount in
     let inserted := inserted_rows conn timestamp ticker direction amount in
     store_inv conn' /\
     List.length (db_rows conn')
       = Nat.min LIQUIDATION_HISTORY_LIMIT (List.length inserted) /\
     (forall r, In r (db_rows conn') -> In r inserted) /\
     (forall k r, In k (db_rows conn') -> In r inserted ->
                  ~ In r (db_rows conn') -> newer_eqb k r = true)).
Proof.
  assert (store_inv empty_db) as Hempty.
  { repeat split; simpl; try constructor. unfold LIQUIDATION_HISTORY_LIMIT. lia. }
  split; [reflexivity|]. split; [assumption|].
  split; [intros appends; now apply add_all_inv|].
  intros conn timestamp ticker direction amount Hok conn' inserted.
  pose proof (inserted_rows_NoDup conn timestamp ticker direction amount Hok) as Hnd.
  fold inserted in Hnd.
  assert (db_rows conn'
          = filter (id_in (select_recent_ids LIQUIDATION_HISTORY_LIMIT inserted))
              inserted) as Hrows by reflexivity.
  assert (List.length (db_rows conn')
          = Nat.min LIQUIDATION_HISTORY_LIMIT (List.length inserted)) as Hlen.
  { subst conn'. rewrite add_liquidation_length by assumption.
    subst inserted. unfold inserted_rows. rewrite length_app.
    cbn [List.length]. now rewrite Nat.add_1_r. }
  split; [|split; [assumption|split]].
  - split; [now apply add_liquidation_ok|]. rewrite Hlen. apply Nat.le_min_l.
  - intros r Hr. rewrite Hrows in Hr. apply filter_In in Hr. tauto.
  - intros k r Hk Hr Hdel. rewrite Hrows in Hk, Hdel.
    apply filter_In in Hk. destruct Hk as [Hkin Hk].
    apply (kept_iff_recent _ _ _ Hnd Hkin) in Hk.
    assert (~ In r (firstn LIQUIDATION_HISTORY_LIMIT (sort_by newer_eqb inserted)))
      as Hnot.
    { intros H. apply Hdel. apply filter_In. split; [assumption|].
      now apply (kept_iff_recent _ _ _ Hnd Hr). }
    assert (In r (skipn LIQUIDATION_HISTORY_LIMIT (sort_by newer_eqb inserted)))
      as Hskip.
    { apply (Permutation_in _ (Permutation_sym (sort_by_perm newer_eqb inserted)))
        in Hr.
      rewrite <- (firstn_skipn LIQUIDATION_HISTORY_LIMIT) in Hr.
      apply in_app_or in Hr. tauto. }
    apply (sorted_app_le newer_eqb
             (firstn LIQUIDATION_HISTORY_LIMIT (sort_by newer_eqb inserted))
             (skipn LIQUIDATION_HISTORY_LIMIT (sort_by newer_eqb inserted)));
      [|assumption|assumption].
    rewrite firstn_skipn.
    apply (sort_by_sorted newer_eqb newer_eqb_total newer_eqb_trans).
Qed.

Lemma store_bounded_witness :
  store_inv (add_liquidation empty_db 0%Z "BTC" "Long" 100).
Proof.
  destruct store_bounded as [_ [_ [_ H]]].
  apply (H empty_db 0%Z "BTC"%string "Long"%string 100).
  split; constructor.
Defined.

(** ** Event store: range query *)

Lemma rows_to_events_perm (l l' : list row) :
  Permutation l l' -> Permutation (rows_to_events l) (rows_to_events l').
Proof.
  induction 1 as [|r l l' _ IH|r r' l|l l' l'' _ IH1 _ IH2]; simpl.
  - constructor.
  - destruct (_to_datetime (row_timestamp r)); [now apply perm_skip | assumption].
  - destruct (_to_datetime (row_timestamp r)), (_to_datetime (row_timestamp r'));
      try reflexivity. apply perm_swap.
  - now transitivity (rows_to_events l').
Qed.

Lemma rows_to_events_between (start_time end_time : datetime) (rows : list row) :
  rows_to_events (filter (between start_time end_time) rows)
  = stored_events_between start_time end_time rows.
Proof.
  unfold stored_events_between.
  induction rows as [|r rows IH]; simpl.
  - reflexivity.
  - unfold between at 1.
    destruct (row_timestamp r) as [t|k] eqn:E; simpl.
    + destruct ((start_time <=? t)%Z && (t <=? end_time)%Z)%bool; simpl.
      * rewrite E. simpl. now rewrite IH.
      * assumption.
    + destruct ((start_time <=? k)%Z && (k <=? end_time)%Z)%bool; simpl.
      * rewrite E. simpl. assumption.
      * assumption.
Qed.

Lemma rows_to_events_In (ev : event) (rows : list row) :
  In ev (rows_to_events rows) <->
  exists r, In r rows /\ row_timestamp r = TsIso (ev_timestamp ev) /\
            row_ticker r = ev_ticker ev /\ row_direction r = ev_direction ev /\
            row_amount r = ev_amount ev.
Proof.
  induction rows as [|r rows IH]; simpl.
  - split; [intros [] | intros [r [[] _]]].
  - destruct (row_timestamp r) as [t|k] eqn:E; simpl.
    + split.
      * intros [<-|H].
        -- exists r. simpl. rewrite E. tauto.
        -- apply IH in H. destruct H as [r' [Hr' H]]. exists r'. tauto.
      * intros [r' [[<-|Hr'] [Ht [Htk [Hd Ha]]]]].
        -- left. destruct ev as [ts tk d a]. simpl in *.
           rewrite E in Ht. injection Ht as ->. now subst.
        -- right. apply IH. exists r'. tauto.
    + rewrite IH. split.
      * intros [r' [Hr' H]]. exists r'. tauto.
      * intros [r' [[<-|Hr'] [Ht H]]].
        -- rewrite E in Ht. discriminate.
        -- exists r'. tauto.
Qed.

Lemma rows_to_events_sorted (rows : list row) :
  StronglySorted (fun a b => older_eqb a b = true) rows ->
  ascending_by_timestamp (rows_to_events rows).
Proof.
  unfold ascending_by_timestamp.
  induction 1 as [|r rows Hs IH Hr]; simpl.
  - constructor.
  - destruct (row_timestamp r) as [t|k] eqn:E; simpl; [|assumption].
    constructor; [assumption|].
    rewrite Forall_forall in *. intros ev Hev. simpl.
    apply rows_to_events_In in Hev. destruct Hev as [r' [Hr' [Ht _]]].
    specialize (Hr r' Hr'). unfold older_eqb in Hr.
    rewrite E, Ht in Hr. simpl in Hr. now apply Z.leb_le.
Qed.

Lemma rows_to_events_junk (rows : list row) :
  (forall r, In r rows -> _to_datetime (row_timestamp r) = None) ->
  rows_to_events rows = [].
Proof.
  induction rows as [|r rows IH]; simpl; intros H.
  - reflexivity.
  - rewrite (H r (or_introl eq_refl)). apply IH. intros r' Hr'. apply H. now right.
Qed.

(** C9: a range query returns the stored events with
    [start <= timestamp <= end] (each as often as it is stored), ascending
    by timestamp, [end] being the clock reading when omitted; a row whose
    timestamp does not parse is left out, and a window holding only such
    rows gives the empty sequence.  The query is a total function: it
    returns on every table. *)
Theorem range_query (clock : datetime) (conn : db) (start_time : datetime)
    (end_time : option datetime) :
  let stop := match end_time with Some e => e | None => clock end in
  let result := get_liquidations_in_timeframe clock conn start_time end_time in
  Permutation result (stored_events_between start_time stop (db_rows conn)) /\
  ascending_by_timestamp result /\
  (forall ev, In ev result <->
     exists r, In r (db_rows conn) /\
       row_timestamp r = TsIso (ev_timestamp ev) /\
       (start_time <= ev_timestamp ev <= stop)%Z /\
       row_ticker r = ev_ticker ev /\ row_direction r = ev_direction ev /\
       row_amount r = ev_amount ev) /\
  get_liquidations_in_timeframe clock conn start_time None
    = get_liquidations_in_timeframe clock conn start_time (Some clock) /\
  ((forall r, In r (db_rows conn) ->
      (start_time <= ts_key (row_timestamp r) <= stop)%Z ->
      _to_datetime (row_timestamp r) = None) ->
   result = []).
Proof.
  intros stop result.
  assert (result = rows_to_events
            (sort_by older_eqb (filter (between start_time stop) (db_rows conn))))
    as Hres by reflexivity.
  pose proof (sort_by_perm older_eqb
                (filter (between start_time stop) (db_rows conn))) as Hperm.
  split; [|split; [|split; [|split]]].
  - rewrite Hres, <- rows_to_events_between. now apply rows_to_events_perm.
  - rewrite Hres. apply rows_to_events_sorted.
    apply (sort_by_sorted older_eqb older_eqb_total older_eqb_trans).
  - intros ev. rewrite Hres, rows_to_events_In. split.
    + intros [r [Hr [Ht H]]]. exists r.
      apply (Permutation_in _ Hperm) in Hr. apply filter_In in Hr.
      destruct Hr as [Hr Hb]. unfold between in Hb. rewrite Ht in Hb. simpl in Hb.
      apply andb_true_iff in Hb. rewrite !Z.leb_le in Hb. tauto.
    + intros [r [Hr [Ht [Hb H]]]]. exists r. split; [|tauto].
      apply (Permutation_in _ (Permutation_sym Hperm)). apply filter_In.
      split; [assumption|]. unfold between. rewrite Ht. simpl.
      apply andb_true_iff. rewrite !Z.leb_le. assumption.
  - reflexivity.
  - intros Hjunk. rewrite Hres. apply rows_to_events_junk. intros r Hr.
    apply (Permutation_in _ Hperm) in Hr. apply filter_In in Hr.
    destruct Hr as [Hr Hb]. apply Hjunk; [assumption|].
    unfold between in Hb. apply andb_true_iff in Hb. now rewrite !Z.leb_le in Hb.
Qed.

Lemma range_query_witness :
  let conn := {| db_rows := [mkRow 1%Z (TsJunk 50%Z) "BTC" "Long" 100;
                             mkRow 2%Z (TsIso 500%Z) "ETH" "Short" 7;
                             mkRow 3%Z (TsJunk 70%Z) "SOL" "Long" 9];
                 db_seq := 3%Z |} in
  get_liquidations_in_timeframe 100%Z conn 0%Z None = [].
Proof.
  intros conn.
  destruct (range_query 100%Z conn 0%Z None) as [_ [_ [_ [_ H]]]].
  apply H. intros r [<-|[<-|[<-|[]]]]; simpl; intros Hb; try reflexivity. lia.
Defined.

(** ** Message parser *)

Local Open Scope string_scope.

Lemma remove_char_app (c : ascii) (a b : string) :
  remove_char c (a ++ b) = remove_char c a ++ remove_char c b.
Proof.
  induction a as [|x a IH]; simpl.
  - reflexivity.
  - destruct (Ascii.eqb x c); simpl; now rewrite IH.
Qed.

Lemma remove_char_absent (c : ascii) (s : string) :
  remove_char c (remove_char c s) = remove_char c s.
Proof.
  induction s as [|x s IH]; simpl.
  - reflexivity.
  - destruct (Ascii.eqb x c) eqn:E; simpl; [assumption|].
    now rewrite E, IH.
Qed.

Lemma remove_char_comm (c d : ascii) (s : string) :
  remove_char c (remove_char d s) = remove_char d (remove_char c s).
Proof.
  induction s as [|x s IH]; simpl.
  - reflexivity.
  - destruct (Ascii.eqb x d) eqn:Ed, (Ascii.eqb x c) eqn:Ec; simpl;
      rewrite ?Ed, ?Ec, ?IH; reflexivity.
Qed.

Lemma strip_amount_idem (s : string) :
  strip_amount (strip_amount s) = strip_amount s.
Proof.
  unfold strip_amount.
  rewrite (remove_char_comm "$" "," (remove_char "$" s)).
  now rewrite !remove_char_absent.
Qed.

Lemma endswith_snoc (c c' : ascii) (s : string) :
  endswith c (s ++ String c' "") = Ascii.eqb c' c.
Proof.
  induction s as [|x s IH]; simpl.
  - reflexivity.
  - rewrite IH. destruct s; reflexivity.
Qed.

Lemma drop_last_snoc (c : ascii) (s : string) :
  drop_last (s ++ String c "") = s.
Proof.
  induction s as [|x s IH]; simpl.
  - reflexivity.
  - rewrite IH. destruct s; reflexivity.
Qed.

Lemma snoc_not_empty (c : ascii) (s : string) :
  String.eqb (s ++ String c "") "" = false.
Proof. destruct s; reflexivity. Qed.

(** A text [float] reads holds digits and points only. *)
Lemma digits_value_chars (s : string) (acc v : Z) :
  digits_value acc s = Some v -> forall c, endswith c s = true -> is_digit c = true.
Proof.
  revert acc. induction s as [|x s IH]; simpl; intros acc H c Hc.
  - discriminate.
  - destruct (is_digit x) eqn:E; [|discriminate].
    destruct s as [|y s].
    + apply Ascii.eqb_eq in Hc. now subst.
    + exact (IH _ H c Hc).
Qed.

Lemma split_point_last (s : string) (c : ascii) :
  endswith c s = true ->
  c = "."%char \/ endswith c (fst (split_point s)) = true
  \/ endswith c (snd (split_point s)) = true.
Proof.
  induction s as [|x s IH]; simpl; intros H.
  - discriminate.
  - destruct (Ascii.eqb x ".") eqn:E.
    + simpl. destruct s as [|y s].
      * apply Ascii.eqb_eq in E, H. left. congruence.
      * right. right. assumption.
    + destruct s as [|y s].
      * simpl. right. left. assumption.
      * specialize (IH H). destruct (split_point (String y s)) as [a b] eqn:Es.
        simpl in *. destruct IH as [IH|[IH|IH]]; [tauto| |tauto].
        right. left. destruct a; [discriminate | assumption].
Qed.

Lemma py_float_last (s : string) (v : Q) (c : ascii) :
  py_float s = Some v -> endswith c s = true ->
  c = "."%char \/ is_digit c = true.
Proof.
  unfold py_float. intros H Hc.
  pose proof (split_point_last s c Hc) as Hl.
  destruct (split_point s) as [ip fp]. simpl in Hl.
  destruct (digits_value 0 ip) as [i|] eqn:Ei; [|discriminate].
  destruct (digits_value 0 fp) as [f|] eqn:Ef; [|discriminate].
  destruct Hl as [Hl|[Hl|Hl]]; [tauto | right | right].
  - exact (digits_value_chars _ _ _ Ei c Hl).
  - exact (digits_value_chars _ _ _ Ef c Hl).
Qed.

Lemma py_float_no_suffix (s : string) (v : Q) :
  py_float s = Some v -> endswith "k" s = false /\ endswith "M" s = false.
Proof.
  intros H. split.
  - destruct (endswith "k" s) eqn:E; [|reflexivity].
    destruct (py_float_last s v "k" H E); discriminate.
  - destruct (endswith "M" s) eqn:E; [|reflexivity].
    destruct (py_float_last s v "M" H E); discriminate.
Qed.

Lemma py_float_not_empty (s : string) (v : Q) :
  py_float s = Some v -> String.eqb s "" = false.
Proof. destruct s; [discriminate | reflexivity]. Qed.

(** [match_here] needs a [#] in front. *)
Lemma match_here_hash (s : string) (g : groups) :
  match_here s = Some g -> exists s', s = String "#" s'.
Proof.
  destruct s as [|c s]; simpl; [discriminate|].
  unfold match_here, lit. unfold eqb_ci.
  destruct (Ascii.eqb (to_lower "#") (to_lower c)) eqn:E; [|discriminate].
  intros _. exists s. f_equal.
  destruct c as [[] [] [] [] [] [] [] []]; try discriminate; reflexivity.
Qed.

Lemma re_search_needs_hash (s : string) :
  has_char "#" s = false -> re_search s = None.
Proof.
  induction s as [|c s IH]; intros H.
  - reflexivity.
  - simpl in H. apply orb_false_iff in H. destruct H as [Hc Hs].
    cbn [re_search].
    destruct (match_here (String c s)) as [g|] eqn:E.
    + apply match_here_hash in E. destruct E as [s' E]. injection E as -> _.
      discriminate.
    + now apply IH.
Qed.

Lemma all_chars_weaken (p q : ascii -> bool) (s : string) :
  (forall c, p c = true -> q c = true) ->
  all_chars p s = true -> all_chars q s = true.
Proof.
  intros Hpq. induction s as [|c s IH]; simpl; [reflexivity|].
  rewrite !andb_true_iff. intros [Hc Hs]. auto.
Qed.

(** Every character the amount group can hold is one on which [py_float]
    is [float]. *)
Lemma amount_char_plain (c : ascii) : amount_char c = true -> float_plain c = true.
Proof.
  destruct c as [[] [] [] [] [] [] [] []]; vm_compute; intros H;
    first [reflexivity | discriminate H].
Qed.

(** C7: the three parses the specification lists; the amount depends only
    on the text with [$] and [,] taken out; a trailing [k] multiplies the
    number read by 1,000 and a trailing [M] by 1,000,000; a text whose
    number does not parse gives 0; and a text the pattern does not match
    (one without [#], for one) gives no result.  Both functions are total:
    no input makes them raise.  The 0 of a failed parse is stated for the
    texts on which [py_float] is [float] (ASCII, and none of the
    characters of a sign, an exponent, an underscore, a blank, [inf] or
    [nan]), which include every text the amount group of the pattern can
    hold; the no-match case is stated for ASCII texts. *)
Theorem parse_contract :
  (exists a, parse_liquidation_message "#BTC Long Liquidation: $1,250.50"
             = Some ("BTC", "Long", a) /\ (a == 1250.50)%Q) /\
  (exists a, parse_liquidation_message "#ETH Short Liquidation: $2k"
             = Some ("ETH", "Short", a) /\ (a == 2000)%Q) /\
  (exists a, parse_liquidation_message "#ETH Short Liquidation: $1.5M"
             = Some ("ETH", "Short", a) /\ (a == 1500000)%Q) /\
  (forall s, _parse_amount s = _parse_amount (strip_amount s)) /\
  (forall s v, py_float (strip_amount s) = Some v ->
     _parse_amount s = (v * 1)%Q /\
     _parse_amount (s ++ "k") = (v * 1000)%Q /\
     _parse_amount (s ++ "M") = (v * 1000000)%Q) /\
  (forall s, all_chars float_plain s = true ->
     py_float (strip_amount s) = None ->
     _parse_amount (s ++ "k") = 0%Q /\ _parse_amount (s ++ "M") = 0%Q /\
     (endswith "k" (strip_amount s) = false ->
      endswith "M" (strip_amount s) = false -> _parse_amount s = 0%Q)) /\
  (forall s, all_chars amount_char s = true -> all_chars float_plain s = true) /\
  (forall s, all_chars is_ascii s = true ->
     re_search s = None -> parse_liquidation_message s = None) /\
  (forall s, has_char "#" s = false -> parse_liquidation_message s = None) /\
  parse_liquidation_message "BTC long position closed, $1,250.50" = None.
Proof.
  assert (forall s c, strip_amount (s ++ String c "")
                      = strip_amount s ++ strip_amount (String c "")) as Happ.
  { intros s c. unfold strip_amount. now rewrite !remove_char_app. }
  split; [eexists; split; [vm_compute; reflexivity | reflexivity]|].
  split; [eexists; split; [vm_compute; reflexivity | reflexivity]|].
  split; [eexists; split; [vm_compute; reflexivity | reflexivity]|].
  split; [|split; [|split; [|split; [|split; [|split]]]]].
  - intros s. unfold _parse_amount. fold (strip_amount s).
    fold (strip_amount (strip_amount s)). rewrite strip_amount_idem.
    destruct s as [|c s]; [reflexivity|].
    destruct (strip_amount (String c s)) eqn:E; reflexivity.
  - intros s v Hv.
    destruct (py_float_no_suffix _ _ Hv) as [Hk HM].
    assert (String.eqb s "" = false) as Hne.
    { destruct s; [discriminate | reflexivity]. }
    split; [|split].
    + unfold _parse_amount. fold (strip_amount s). now rewrite Hne, Hk, HM, Hv.
    + unfold _parse_amount. fold (strip_amount (s ++ "k")).
      rewrite snoc_not_empty, Happ.
      change (strip_amount "k") with "k".
      rewrite !endswith_snoc, !drop_last_snoc.
      change (Ascii.eqb "k" "k") with true. cbv beta iota. now rewrite Hv.
    + unfold _parse_amount. fold (strip_amount (s ++ "M")).
      rewrite snoc_not_empty, Happ.
      change (strip_amount "M") with "M".
      rewrite !endswith_snoc, !drop_last_snoc.
      change (Ascii.eqb "M" "k") with false.
      change (Ascii.eqb "M" "M") with true. cbv beta iota. now rewrite Hv.
  - intros s _ Hv. split; [|split].
    + unfold _parse_amount. fold (strip_amount (s ++ "k")).
      rewrite snoc_not_empty, Happ.
      change (strip_amount "k") with "k".
      rewrite !endswith_snoc, !drop_last_snoc.
      change (Ascii.eqb "k" "k") with true. cbv beta iota. now rewrite Hv.
    + unfold _parse_amount. fold (strip_amount (s ++ "M")).
      rewrite snoc_not_empty, Happ.
      change (strip_amount "M") with "M".
      rewrite !endswith_snoc, !drop_last_snoc.
      change (Ascii.eqb "M" "k") with false.
      change (Ascii.eqb "M" "M") with true. cbv beta iota. now rewrite Hv.
    + intros Hk HM. unfold _parse_amount. fold (strip_amount s).
      rewrite Hk, HM, Hv. now destruct (String.eqb s "").
  - intros s H. apply (all_chars_weaken amount_char); [|assumption].
    apply amount_char_plain.
  - intros s _ H. unfold parse_liquidation_message. rewrite H.
    now destruct (String.eqb s "").
  - intros s H. unfold parse_liquidation_message.
    rewrite (re_search_needs_hash s H). now destruct (String.eqb s "").
  - vm_compute. reflexivity.
Qed.

Lemma parse_contract_witness :
  _parse_amount "$12,345.5k" = ((123455 # 10) * 1000)%Q /\
  _parse_amount "$12..5" = 0%Q /\
  parse_liquidation_message "no liquidation here" = None.
Proof.
  destruct parse_contract as [_ [_ [_ [_ [Hok [Hbad [_ [_ [Hhash _]]]]]]]]].
  split; [|split].
  - apply (Hok "$12,345.5" (123455 # 10)%Q). reflexivity.
  - apply (Hbad "$12..5"); reflexivity.
  - apply Hhash. reflexivity.
Defined.

Local Close Scope string_scope.

(** ** Detection state machine: leaving IDLE *)

Lemma cooldown_blocks_false (cfg : Config) (now : datetime) (self : LiquidationMonitor) :
  cooldown_blocks cfg now self = false <->
  (last_summary_sent self = None \/
   exists sent, last_summary_sent self = Some sent /\
     of_int (SUMMARY_COOLDOWN_SECONDS cfg) <= total_seconds (now - sent)).
Proof.
  unfold cooldown_blocks. destruct (last_summary_sent self) as [sent|].
  - rewrite Qltb_false. split.
    + intros H. right. exists sent. now split.
    + intros [H|[t [E H]]]; [discriminate|]. now injection E as ->.
  - split; [now left | reflexivity].
Qed.

Lemma cooldown_blocks_true (cfg : Config) (now : datetime) (self : LiquidationMonitor) :
  cooldown_blocks cfg now self = true <->
  exists sent, last_summary_sent self = Some sent /\
    total_seconds (now - sent) < of_int (SUMMARY_COOLDOWN_SECONDS cfg).
Proof.
  unfold cooldown_blocks. destruct (last_summary_sent self) as [sent|].
  - rewrite Qltb_true. split.
    + intros H. exists sent. now split.
    + intros [t [E H]]. now injection E as ->.
  - split; [discriminate | intros [t [E _]]; discriminate].
Qed.

(** C1: an evaluation in IDLE whose window speed is at or above the
    threshold, with no summary sent yet or the cooldown elapsed, returns
    with the monitor ACTIVE, the events of the IDLE window as the buffer,
    [active_since] and [last_above_threshold_time] at [now], and
    [prev_known_speed] at the [last_known_speed] the monitor came in with;
    [last_known_speed] becomes the window speed, [last_summary_sent] is
    untouched and nothing is posted.  The defaults are 20000 USD/sec, a 300
    second window and a 60 second cooldown. *)
Theorem idle_to_active (cfg : Config) (conn : db) (now : datetime)
    (resp : response) (self : LiquidationMonitor) :
  let events :=
    get_liquidations_in_timeframe now conn
      (now - timedelta_seconds (ANALYSIS_WINDOW_SECONDS cfg))%Z (Some now) in
  let speed :=
    speed_usd_per_sec
      (calculate_liquidation_metrics events (of_int (ANALYSIS_WINDOW_SECONDS cfg))) in
  state self = IDLE ->
  BASE_THRESHOLD_USD_PER_SEC cfg <= speed ->
  (last_summary_sent self = None \/
   exists sent, last_summary_sent self = Some sent /\
     of_int (SUMMARY_COOLDOWN_SECONDS cfg) <= total_seconds (now - sent)) ->
  check_and_transition cfg conn now resp self =
    Done {| state := ACTIVE;
            active_since := Some now;
            last_summary_sent := last_summary_sent self;
            last_known_speed := speed;
            prev_known_speed := last_known_speed self;
            last_above_threshold_time := Some now;
            active_period_events := events |} [] /\
  BASE_THRESHOLD_USD_PER_SEC default_config == 20000 /\
  ANALYSIS_WINDOW_SECONDS default_config = 300%Z /\
  SUMMARY_COOLDOWN_SECONDS default_config = 60%Z.
Proof.
  intros events speed Hidle Hspeed Hcool.
  split; [|repeat split].
  unfold check_and_transition, current_speed, window_events.
  rewrite Hidle. cbn [fst].
  fold events. fold speed.
  apply Qgeb_true in Hspeed. rewrite Hspeed.
  apply cooldown_blocks_false in Hcool. rewrite Hcool.
  reflexivity.
Qed.

Lemma idle_to_active_witness :
  check_and_transition default_config burst_db (timedelta_seconds 2) ClientError
    new_monitor
  = Done {| state := ACTIVE;
            active_since := Some (timedelta_seconds 2);
            last_summary_sent := None;
            last_known_speed :=
              speed_usd_per_sec
                (calculate_liquidation_metrics
                   (get_liquidations_in_timeframe (timedelta_seconds 2) burst_db
                      (timedelta_seconds 2 - timedelta_seconds 300)%Z
                      (Some (timedelta_seconds 2)))
                   (of_int 300));
            prev_known_speed := 0;
            last_above_threshold_time := Some (timedelta_seconds 2);
            active_period_events :=
              get_liquidations_in_timeframe (timedelta_seconds 2) burst_db
                (timedelta_seconds 2 - timedelta_seconds 300)%Z
                (Some (timedelta_seconds 2)) |} [].
Proof.
  apply (idle_to_active default_config burst_db (timedelta_seconds 2) ClientError
           new_monitor).
  - reflexivity.
  - vm_compute. discriminate.
  - left. reflexivity.
Defined.

(** ** Detection state machine: the cooldown *)

(** What a blocked evaluation does: in IDLE, at or above the threshold,
    with the cooldown running, the step returns with the monitor exactly as
    it was, [last_known_speed] included, and posts nothing.  The [return]
    of line 250 comes before the assignment of line 258. *)
Theorem cooldown_leaves_monitor (cfg : Config) (conn : db) (now : datetime)
    (resp : response) (self : LiquidationMonitor) :
  state self = IDLE ->
  BASE_THRESHOLD_USD_PER_SEC cfg <= current_speed cfg conn now self ->
  (exists sent, last_summary_sent self = Some sent /\
     total_seconds (now - sent) < of_int (SUMMARY_COOLDOWN_SECONDS cfg)) ->
  check_and_transition cfg conn now resp self = Done self [].
Proof.
  intros Hidle Hspeed Hcool.
  unfold check_and_transition. rewrite Hidle.
  apply Qgeb_true in Hspeed. rewrite Hspeed.
  apply cooldown_blocks_true in Hcool. now rewrite Hcool.
Qed.

Lemma cooldown_leaves_monitor_witness :
  check_and_transition default_config second_burst_db (timedelta_seconds 402)
    ClientError cooling_monitor
  = Done cooling_monitor [].
Proof.
  apply cooldown_leaves_monitor.
  - reflexivity.
  - vm_compute. discriminate.
  - exists (timedelta_seconds 392 + 1)%Z. split; reflexivity.
Defined.

(** C3: the code at a blocked evaluation.  The state stays IDLE and
    nothing is posted, but [last_known_speed] is not brought to the current
    speed, which every other path of the step does.  Ten seconds after a
    summary, with 6,500,000 USD in the window (21666.67 USD/sec), the
    monitor still holds the 7,000,000 / 390 USD/sec it had. *)
Theorem cooldown_skips_speed_update :
  let now := timedelta_seconds 402 in
  state cooling_monitor = IDLE /\
  BASE_THRESHOLD_USD_PER_SEC default_config
    <= current_speed default_config second_burst_db now cooling_monitor /\
  cooldown_blocks default_config now cooling_monitor = true /\
  exists m,
    check_and_transition default_config second_burst_db now ClientError
      cooling_monitor = Done m [] /\
    current_speed default_config second_burst_db now cooling_monitor
      == 6500000 / 300 /\
    last_known_speed m == 7000000 / 390 /\
    ~ last_known_speed m
      == current_speed default_config second_burst_db now cooling_monitor.
Proof.
  intros now.
  split; [reflexivity|]. split; [vm_compute; discriminate|].
  split; [reflexivity|].
  exists cooling_monitor. split; [vm_compute; reflexivity|].
  split; [reflexivity|]. split; [reflexivity|]. vm_compute. discriminate.
Qed.

(** ** Detection state machine: the ACTIVE branch *)

Section ActiveStep.
Variable cfg : Config.
Variable conn : db.
Variable now : datetime.
Variable resp : response.
Variable self : LiquidationMonitor.
Variables since above : datetime.
Hypothesis Hactive : state self = ACTIVE.
Hypothesis Hsince : active_since self = Some since.
Hypothesis Habove : last_above_threshold_time self = Some above.

(** The speed over the buffer and the growing window. *)
Let full_metrics :=
  calculate_liquidation_metrics (active_period_events self)
    (total_seconds (now - since)).
Let speed := speed_usd_per_sec full_metrics.

Lemma active_speed : current_speed cfg conn now self = speed.
Proof.
  unfold current_speed, window_events. now rewrite Hactive, Hsince.
Qed.

(** Below the threshold with the grace period over: one summary call on
    the metrics of the whole buffer, then the reset. *)
Lemma active_exit :
  speed < BASE_THRESHOLD_USD_PER_SEC cfg ->
  of_int (ACTIVE_IDLE_TRANSITION_GRACE_PERIOD_SECONDS cfg)
    <= total_seconds (now - above) ->
  let sent :=
    _send_summary_notification cfg resp self full_metrics
      (calculate_acceleration cfg speed (prev_known_speed self))
      (prev_known_speed self) in
  check_and_transition cfg conn now resp self =
    Done {| state := IDLE;
            active_since := None;
            last_summary_sent := last_summary_sent (fst sent);
            last_known_speed := speed;
            prev_known_speed := 0;
            last_above_threshold_time := Some above;
            active_period_events := [] |} (snd sent).
Proof.
  intros Hlow Hgrace sent.
  unfold check_and_transition. rewrite active_speed, Hactive, Habove, Hsince.
  apply Qltb_true in Hlow. rewrite Hlow.
  apply Qgeb_true in Hgrace. rewrite Hgrace.
  fold full_metrics. fold speed. fold sent.
  destruct sent as [m posted] eqn:E. cbn [fst snd].
  assert (last_above_threshold_time m = Some above) as Hm.
  { subst sent. unfold _send_summary_notification in E.
    destruct (webhook_missing cfg); [|destruct resp]; injection E as <- _;
      assumption. }
  unfold set_last_known_speed, set_prev_known_speed, set_active_period_events,
    set_active_since, set_state. cbn. now rewrite Hm.
Qed.

(** Below the threshold inside the grace period: only the speed is noted. *)
Lemma active_grace :
  speed < BASE_THRESHOLD_USD_PER_SEC cfg ->
  total_seconds (now - above)
    < of_int (ACTIVE_IDLE_TRANSITION_GRACE_PERIOD_SECONDS cfg) ->
  check_and_transition cfg conn now resp self
  = Done (set_last_known_speed speed self) [].
Proof.
  intros Hlow Hgrace.
  unfold check_and_transition. rewrite active_speed, Hactive, Habove.
  apply Qltb_true in Hlow. rewrite Hlow.
  apply Qgeb_false in Hgrace. now rewrite Hgrace.
Qed.

(** At or above the threshold: the grace anchor moves to [now]. *)
Lemma active_refresh :
  BASE_THRESHOLD_USD_PER_SEC cfg <= speed ->
  check_and_transition cfg conn now resp self
  = Done (set_last_known_speed speed
            (set_last_above_threshold_time (Some now) self)) [].
Proof.
  intros Hhigh.
  unfold check_and_transition. rewrite active_speed, Hactive.
  apply Qltb_false in Hhigh. now rewrite Hhigh.
Qed.

(** The monitor leaves ACTIVE exactly when the speed is below the
    threshold and the grace period is over. *)
Lemma active_exit_iff :
  (exists m posted,
     check_and_transition cfg conn now resp self = Done m posted /\
     state m = IDLE)
  <-> (speed < BASE_THRESHOLD_USD_PER_SEC cfg /\
       of_int (ACTIVE_IDLE_TRANSITION_GRACE_PERIOD_SECONDS cfg)
         <= total_seconds (now - above)).
Proof.
  split.
  - intros [m [posted [Hstep Hidle]]].
    destruct (Qlt_le_dec speed (BASE_THRESHOLD_USD_PER_SEC cfg)) as [Hlow|Hhigh].
    + split; [assumption|].
      destruct (Qlt_le_dec (total_seconds (now - above))
                  (of_int (ACTIVE_IDLE_TRANSITION_GRACE_PERIOD_SECONDS cfg)))
        as [Hin|Hout]; [|assumption].
      rewrite (active_grace Hlow Hin) in Hstep. injection Hstep as <- _.
      simpl in Hidle. congruence.
    + rewrite (active_refresh Hhigh) in Hstep. injection Hstep as <- _.
      simpl in Hidle. congruence.
  - intros [Hlow Hgrace]. rewrite (active_exit Hlow Hgrace).
    eexists. eexists. split; reflexivity.
Qed.
End ActiveStep.

(** ** Detection state machine: the summary and [last_summary_sent] *)

(** A summary is posted at most once in a step, and only on leaving
    ACTIVE. *)
Lemma posted_at_most_once (cfg : Config) (conn : db) (now : datetime)
    (resp : response) (self m : LiquidationMonitor) (posted : list summary_embed) :
  check_and_transition cfg conn now resp self = Done m posted ->
  posted = [] \/
  (exists embed, posted = [embed] /\ state self = ACTIVE /\ state m = IDLE /\
                 webhook_missing cfg = false).
Proof.
  unfold check_and_transition.
  destruct (state self) eqn:Hs.
  - destruct (Qgeb _ _); [destruct (cooldown_blocks _ _ _)|];
      intros H; injection H as <- <-; now left.
  - destruct (Qltb _ _).
    + destruct (last_above_threshold_time self) as [above|]; [|discriminate].
      destruct (Qgeb _ _).
      * destruct (active_since self) as [since|]; [|discriminate].
        unfold _send_summary_notification.
        destruct (webhook_missing cfg) eqn:Hw.
        -- intros H; injection H as <- <-. now left.
        -- destruct resp; intros H; injection H as <- <-; right;
             eexists; repeat split.
      * intros H; injection H as <- <-. now left.
    + intros H; injection H as <- <-. now left.
Qed.

(** [last_summary_sent] and the post, case by case.  A step that takes
    the monitor from ACTIVE to IDLE with a webhook configured posts one
    embed; if the webhook answers, [last_summary_sent] is the clock reading
    taken after the answer, and if the post fails it keeps its value.  Any
    other step (from IDLE, staying ACTIVE, or without a webhook) posts
    nothing and leaves [last_summary_sent] alone. *)
Lemma summary_sent_only_on_success (cfg : Config) (conn : db) (now : datetime)
    (resp : response) (self m : LiquidationMonitor) (posted : list summary_embed) :
  check_and_transition cfg conn now resp self = Done m posted ->
  (state self = ACTIVE -> state m = IDLE -> webhook_missing cfg = false ->
   (exists embed, posted = [embed]) /\
   last_summary_sent m
   = match resp with
     | Posted received => Some received
     | ClientError => last_summary_sent self
     end) /\
  (state self = IDLE \/ state m = ACTIVE \/ webhook_missing cfg = true ->
   posted = [] /\ last_summary_sent m = last_summary_sent self).
Proof.
  unfold check_and_transition.
  destruct (state self) eqn:Hs.
  - destruct (Qgeb _ _); [destruct (cooldown_blocks _ _ _)|];
      intros H; injection H as <- <-; (split; [discriminate|]); intros _;
      split; reflexivity.
  - destruct (Qltb _ _).
    + destruct (last_above_threshold_time self) as [above|]; [|discriminate].
      destruct (Qgeb _ _).
      * destruct (active_since self) as [since|]; [|discriminate].
        unfold _send_summary_notification.
        destruct (webhook_missing cfg) eqn:Hw.
        -- intros H; injection H as <- <-. split; [discriminate|].
           intros _. split; reflexivity.
        -- destruct resp as [received|]; intros H; injection H as <- <-;
             (split; [intros _ _ _; split; [eexists|]; reflexivity|]);
             intros [H|[H|H]]; discriminate.
      * intros H; injection H as <- <-. cbn. rewrite Hs.
        split; [discriminate|]. intros _. split; reflexivity.
    + intros H; injection H as <- <-. cbn. rewrite Hs.
      split; [discriminate|]. intros _. split; reflexivity.
Qed.

(** When the post fails, the step that leaves ACTIVE still resets the
    monitor and [last_summary_sent] keeps its value. *)
Lemma failed_send_resets (cfg : Config) (conn : db) (now : datetime)
    (self : LiquidationMonitor) (since above : datetime) :
  state self = ACTIVE ->
  active_since self = Some since ->
  last_above_threshold_time self = Some above ->
  current_speed cfg conn now self < BASE_THRESHOLD_USD_PER_SEC cfg ->
  of_int (ACTIVE_IDLE_TRANSITION_GRACE_PERIOD_SECONDS cfg)
    <= total_seconds (now - above) ->
  exists m posted,
    check_and_transition cfg conn now ClientError self = Done m posted /\
    state m = IDLE /\ active_since m = None /\ active_period_events m = [] /\
    prev_known_speed m = 0 /\
    last_known_speed m = current_speed cfg conn now self /\
    last_summary_sent m = last_summary_sent self.
Proof.
  intros Hactive Hsince Habove Hlow Hgrace.
  rewrite (active_speed cfg conn now self since Hactive Hsince) in *.
  rewrite (active_exit cfg conn now ClientError self since above
             Hactive Hsince Habove Hlow Hgrace).
  eexists. eexists. split; [reflexivity|]. cbn.
  repeat split. unfold _send_summary_notification.
  now destruct (webhook_missing cfg).
Qed.

(** C2, on a run from the start of the program: after [burst_run] the
    monitor is ACTIVE with 7,000,000 USD in its buffer since second 2 and
    the speed last at the threshold at second 352.  The evaluation at
    second 392 finds 7,000,000 / 390 USD/sec, 40 seconds after that.  It
    returns to IDLE, posts one summary over the whole buffer with the
    acceleration taken against [prev_known_speed], clears the buffer and
    [active_since] and zeroes [prev_known_speed]; but [last_known_speed] is
    left at the speed just measured, not at 0. *)
Theorem active_exit_keeps_speed :
  let now := timedelta_seconds 392 in
  state active_monitor = ACTIVE /\
  active_since active_monitor = Some (timedelta_seconds 2) /\
  last_above_threshold_time active_monitor = Some (timedelta_seconds 352) /\
  exists m embed,
    check_and_transition default_config burst_db now (Posted (now + 1)%Z)
      active_monitor = Done m [embed] /\
    state m = IDLE /\ active_since m = None /\ active_period_events m = [] /\
    prev_known_speed m = 0 /\ last_summary_sent m = Some (now + 1)%Z /\
    sum_total_amount embed == 7000000 /\ sum_count embed = 1%nat /\
    sum_speed embed == 7000000 / 390 /\
    sum_prev_speed embed == prev_known_speed active_monitor /\
    sum_acceleration embed
      == calculate_acceleration default_config (7000000 / 390)
           (prev_known_speed active_monitor) /\
    last_known_speed m == 7000000 / 390 /\
    ~ last_known_speed m == 0.
Proof.
  intros now. repeat (split; [reflexivity|]).
  eexists. eexists.
  split; [vm_compute; reflexivity|].
  repeat split; try reflexivity.
  vm_compute. discriminate.
Qed.

(** C10, on the same run with the post failing: the monitor returns to IDLE
    with the buffer and [active_since] cleared and [prev_known_speed] at 0,
    and [last_summary_sent] keeps the value it had; [last_known_speed] is
    left at 7,000,000 / 390 USD/sec, not at 0.  Once the second message is
    in, the evaluation at second 402 finds 6,500,000 / 300 USD/sec and goes
    straight back to ACTIVE, taking the speed that was left as its
    baseline. *)
Theorem failed_send_keeps_speed :
  let now := timedelta_seconds 392 in
  exists m embed,
    check_and_transition default_config burst_db now ClientError active_monitor
      = Done m [embed] /\
    state m = IDLE /\ active_since m = None /\ active_period_events m = [] /\
    prev_known_speed m = 0 /\
    last_summary_sent m = last_summary_sent active_monitor /\
    last_known_speed m == 7000000 / 390 /\
    ~ last_known_speed m == 0 /\
    exists m',
      check_and_transition default_config second_burst_db (timedelta_seconds 402)
        ClientError m = Done m' [] /\
      state m' = ACTIVE /\ prev_known_speed m' == 7000000 / 390.
Proof.
  intros now. eexists. eexists.
  split; [vm_compute; reflexivity|].
  repeat split; try reflexivity.
  - vm_compute. discriminate.
  - eexists. split; [vm_compute; reflexivity|]. split; reflexivity.
Qed.

(** ** Runs of the program: the time attributes of an ACTIVE monitor *)

Lemma check_and_transition_returns (cfg : Config) (conn : db) (now : datetime)
    (resp : response) (self : LiquidationMonitor) :
  monitor_ok self ->
  exists m posted,
    check_and_transition cfg conn now resp self = Done m posted /\ monitor_ok m.
Proof.
  intros Hok. unfold check_and_transition.
  destruct (state self) eqn:Hs.
  - destruct (Qgeb _ _); [destruct (cooldown_blocks _ _ _)|];
      eexists; eexists; (split; [reflexivity|]).
    + assumption.
    + intros _. cbn. split; eexists; reflexivity.
    + intros H. cbn in H. congruence.
  - destruct (Hok Hs) as [[since Hsince] [above Habove]].
    rewrite Habove, Hsince.
    destruct (Qltb _ _); [destruct (Qgeb _ _)|].
    + destruct (_send_summary_notification _ _ _ _ _ _) as [m posted].
      eexists; eexists; (split; [reflexivity|]).
      intros H. cbn in H. discriminate.
    + eexists; eexists; (split; [reflexivity|]).
      intros _. cbn. rewrite Habove, Hsince. split; eexists; reflexivity.
    + eexists; eexists; (split; [reflexivity|]).
      intros _. cbn. rewrite Hsince. split; eexists; reflexivity.
Qed.

Lemma process_message_ok (cfg : Config) (conn : db) (msg : message)
    (monitor : LiquidationMonitor) :
  monitor_ok monitor ->
  monitor_ok (snd (fst (process_message cfg conn msg monitor))).
Proof.
  intros Hok. unfold process_message.
  destruct (parse_liquidation_message (msg_text msg)) as [[[tk dir] amt]|];
    [|assumption].
  destruct (_ || _ || _)%bool; [assumption|]. cbn [fst snd].
  destruct (state monitor) eqn:Hs; [assumption|].
  intros _. cbn. exact (Hok Hs).
Qed.

Lemma run_action_ok (cfg : Config) (st : db * LiquidationMonitor) (a : action) :
  monitor_ok (snd st) -> monitor_ok (snd (run_action cfg st a)).
Proof.
  destruct st as [conn m]. intros Hok. destruct a as [now resp|msg]; simpl in *.
  - destruct (check_and_transition_returns cfg conn now resp m Hok)
      as [m' [posted [E Hok']]].
    now rewrite E.
  - pose proof (process_message_ok cfg conn msg m Hok) as H.
    destruct (process_message cfg conn msg m) as [[conn' m'] posted]. exact H.
Qed.

(** From the start of the program no run reaches an ACTIVE monitor with a
    time attribute missing. *)
Lemma run_ok (cfg : Config) (acts : list action) :
  monitor_ok (snd (run cfg acts)).
Proof.
  unfold run.
  assert (forall st, monitor_ok (snd st) ->
                     monitor_ok (snd (fold_left (run_action cfg) acts st))) as H.
  { induction acts as [|a acts IH]; intros st Hst; simpl.
    - assumption.
    - apply IH. now apply run_action_ok. }
  apply H. intros Hs. discriminate.
Qed.

(** ** Detection state machine: what the exit posts, and single dips *)

(** With a webhook configured the exit posts exactly the summary built from
    the metrics of the whole buffer. *)
Lemma exit_posts_summary (cfg : Config) (resp : response)
    (self : LiquidationMonitor) (mt : metrics) (acceleration prev_speed : Q) :
  webhook_missing cfg = false ->
  snd (_send_summary_notification cfg resp self mt acceleration prev_speed)
  = [build_summary cfg mt acceleration prev_speed].
Proof.
  intros Hw. unfold _send_summary_notification. rewrite Hw. now destruct resp.
Qed.

(** After an evaluation at [now0] that found the speed at or above the
    threshold, an evaluation less than the grace period later stays ACTIVE
    whatever speed it finds, whatever was appended to the buffer meanwhile. *)
Lemma single_dip_stays_active (cfg : Config) (conn conn' : db)
    (now0 now1 : datetime) (resp resp' : response)
    (self m1 : LiquidationMonitor) (since : datetime)
    (posted : list summary_embed) (appended : list event) :
  state self = ACTIVE ->
  active_since self = Some since ->
  BASE_THRESHOLD_USD_PER_SEC cfg <= current_speed cfg conn now0 self ->
  check_and_transition cfg conn now0 resp self = Done m1 posted ->
  total_seconds (now1 - now0)
    < of_int (ACTIVE_IDLE_TRANSITION_GRACE_PERIOD_SECONDS cfg) ->
  exists m2,
    check_and_transition cfg conn' now1 resp'
      (set_active_period_events (active_period_events m1 ++ appended) m1)
    = Done m2 [] /\ state m2 = ACTIVE.
Proof.
  intros Hactive Hsince Hhigh Hstep Hgrace.
  unfold check_and_transition in Hstep. rewrite Hactive in Hstep.
  apply Qltb_false in Hhigh. rewrite Hhigh in Hstep.
  injection Hstep as <- <-.
  set (m := set_active_period_events _ _).
  assert (state m = ACTIVE) as Hm by exact Hactive.
  assert (active_since m = Some since) as Hms by exact Hsince.
  assert (last_above_threshold_time m = Some now0) as Hma by reflexivity.
  destruct (Qlt_le_dec (current_speed cfg conn' now1 m)
              (BASE_THRESHOLD_USD_PER_SEC cfg)) as [Hlow|Hhigh'].
  - rewrite (active_speed cfg conn' now1 m since Hm Hms) in Hlow.
    rewrite (active_grace cfg conn' now1 resp' m since now0 Hm Hms Hma Hlow Hgrace).
    eexists. split; [reflexivity | exact Hm].
  - rewrite (active_speed cfg conn' now1 m since Hm Hms) in Hhigh'.
    rewrite (active_refresh cfg conn' now1 resp' m since Hm Hms Hhigh').
    eexists. split; [reflexivity | exact Hm].
Qed.

(** * Further properties *)

(** ** The matcher *)

Local Open Scope string_scope.

Section MatcherFacts.
Variable R : Type.

Lemma star_inv (p : ascii -> bool) (s : string) (k : kont R) (r : R) :
  star p s k = Some r ->
  exists took rest, s = took ++ rest /\ all_chars p took = true /\
                    k took rest = Some r.
Proof.
  revert k. induction s as [|c s IH]; intros k H; simpl in H.
  - exists "", "". auto.
  - destruct (p c) eqn:Hp.
    + destruct (star p s (fun took rest => k (String c took) rest)) as [r'|] eqn:E.
      * simpl in H. injection H as ->.
        destruct (IH _ E) as [took [rest [Hs [Hall Hk]]]].
        exists (String c took), rest. simpl. rewrite Hp, Hall, Hs. auto.
      * simpl in H. exists "", (String c s). auto.
    + exists "", (String c s). auto.
Qed.

Lemma plus_inv (p : ascii -> bool) (s : string) (k : kont R) (r : R) :
  plus p s k = Some r ->
  exists took rest, s = took ++ rest /\ took <> "" /\
                    all_chars p took = true /\ k took rest = Some r.
Proof.
  unfold plus. destruct s as [|c s]; [discriminate|].
  destruct (p c) eqn:Hp; [|discriminate].
  intros H. apply star_inv in H. destruct H as [took [rest [Hs [Hall Hk]]]].
  exists (String c took), rest. simpl. rewrite Hp, Hall, Hs.
  repeat split; [discriminate | assumption].
Qed.

Lemma opt_inv (p : ascii -> bool) (s : string) (k : kont R) (r : R) :
  opt p s k = Some r ->
  exists took rest, s = took ++ rest /\ all_chars p took = true /\
                    k took rest = Some r.
Proof.
  unfold opt. destruct s as [|c s].
  - intros H. exists "", "". auto.
  - destruct (p c) eqn:Hp.
    + destruct (k (String c "") s) as [r'|] eqn:E; simpl; intros H.
      * injection H as ->. exists (String c ""), s. simpl. rewrite Hp. auto.
      * exists "", (String c s). auto.
    + intros H. exists "", (String c s). auto.
Qed.

Lemma lit_inv (w s : string) (k : kont R) (r : R) :
  lit w s k = Some r ->
  exists took rest, s = took ++ rest /\ same_ci took w /\ k took rest = Some r.
Proof.
  revert s k. induction w as [|a w IH]; intros s k H; simpl in H.
  - exists "", s. repeat split. assumption.
  - destruct s as [|c s]; [discriminate|].
    destruct (eqb_ci a c) eqn:E; [|discriminate].
    destruct (IH _ _ H) as [took [rest [Hs [Hci Hk]]]].
    exists (String c took), rest. unfold same_ci in *. simpl.
    apply Ascii.eqb_eq in E. rewrite Hs, Hci, E. auto.
Qed.

End MatcherFacts.

Arguments star_inv {R} p s k r _.
Arguments plus_inv {R} p s k r _.
Arguments opt_inv {R} p s k r _.
Arguments lit_inv {R} w s k r _.

Lemma all_chars_app (p : ascii -> bool) (a b : string) :
  all_chars p (a ++ b) = all_chars p a && all_chars p b.
Proof.
  induction a as [|c a IH]; simpl.
  - reflexivity.
  - now rewrite IH, andb_assoc.
Qed.

Lemma to_lower_dollar (c : ascii) : to_lower c = "$"%char -> c = "$"%char.
Proof.
  destruct c as [[] [] [] [] [] [] [] []]; try discriminate; reflexivity.
Qed.

Lemma same_ci_dollar (t : string) : same_ci t "$" -> t = "$".
Proof.
  unfold same_ci. destruct t as [|c [|d t]]; try discriminate.
  simpl. intros E. injection E as E. now rewrite (to_lower_dollar c E).
Qed.

(** The amount group holds amount characters only. *)
Lemma match_amount_inv (s : string) (k : kont groups) (g : groups) :
  match_amount s k = Some g ->
  exists amount rest, all_chars amount_char amount = true /\
                      k amount rest = Some g.
Proof.
  unfold match_amount. intros H.
  apply lit_inv in H. destruct H as [t1 [r1 [_ [H1 H]]]].
  apply plus_inv in H. destruct H as [t2 [r2 [_ [_ [H2 H]]]]].
  apply opt_inv in H. destruct H as [t3 [r3 [_ [H3 H]]]].
  apply star_inv in H. destruct H as [t4 [r4 [_ [H4 H]]]].
  apply opt_inv in H. destruct H as [t5 [r5 [_ [H5 H]]]].
  exists (t1 ++ t2 ++ t3 ++ t4 ++ t5), r5. split; [|assumption].
  assert (all_chars amount_char t2 = true) as A2.
  { revert H2. apply all_chars_weaken. intros x Hx. unfold amount_char.
    apply orb_true_iff in Hx. destruct Hx as [Hx|Hx]; rewrite Hx;
      rewrite ?orb_true_r; reflexivity. }
  assert (all_chars amount_char t3 = true) as A3.
  { revert H3. apply all_chars_weaken. intros x Hx. unfold amount_char.
    rewrite Hx. rewrite ?orb_true_r. reflexivity. }
  assert (all_chars amount_char t4 = true) as A4.
  { revert H4. apply all_chars_weaken. intros x Hx. unfold amount_char.
    now rewrite Hx. }
  assert (all_chars amount_char t5 = true) as A5.
  { revert H5. apply all_chars_weaken. intros x Hx. unfold amount_char.
    apply orb_true_iff in Hx. destruct Hx as [Hx|Hx]; rewrite Hx;
      rewrite ?orb_true_r; reflexivity. }
  rewrite (same_ci_dollar t1 H1), !all_chars_app, A2, A3, A4, A5.
  reflexivity.
Qed.

(** What the three groups of a match look like. *)
Lemma match_body_groups (s : string) (ticker direction amount : string) :
  match_body s = Some (ticker, direction, amount) ->
  ticker <> "" /\ all_chars is_word ticker = true /\
  (same_ci direction "Long" \/ same_ci direction "Short") /\
  all_chars amount_char amount = true.
Proof.
  unfold match_body. intros H.
  apply plus_inv in H. destruct H as [tk [s1 [_ [Hne [Htk H]]]]].
  apply plus_inv in H. destruct H as [_ [s2 [_ [_ [_ H]]]]].
  assert (forall d s3,
    plus is_space s3 (fun _ s4 =>
      lit "Liquidation:" s4 (fun _ s5 =>
        star is_space s5 (fun _ s6 =>
          match_amount s6 (fun amt _ => Some (tk, d, amt)))))
    = Some (ticker, direction, amount) ->
    ticker = tk /\ direction = d /\
    all_chars amount_char amount = true) as Hrest.
  { intros d s3 H3.
    apply plus_inv in H3. destruct H3 as [_ [s4 [_ [_ [_ H3]]]]].
    apply lit_inv in H3. destruct H3 as [_ [s5 [_ [_ H3]]]].
    apply star_inv in H3. destruct H3 as [_ [s6 [_ [_ H3]]]].
    apply match_amount_inv in H3. destruct H3 as [amt [rest [Hamt H3]]].
    injection H3 as <- <- <-. auto. }
  destruct (lit "Long" s2 _) as [g|] eqn:EL; unfold or_else in H.
  - injection H as ->. apply lit_inv in EL.
    destruct EL as [d [s3 [_ [Hd H3]]]].
    destruct (Hrest d s3 H3) as [-> [-> Ha]]. auto.
  - apply lit_inv in H. destruct H as [d [s3 [_ [Hd H3]]]].
    destruct (Hrest d s3 H3) as [-> [-> Ha]]. auto.
Qed.

Lemma re_search_groups (s : string) (ticker direction amount : string) :
  re_search s = Some (ticker, direction, amount) ->
  ticker <> "" /\ all_chars is_word ticker = true /\
  (same_ci direction "Long" \/ same_ci direction "Short") /\
  all_chars amount_char amount = true.
Proof.
  induction s as [|c s IH]; cbn [re_search].
  - destruct (match_here "") eqn:E; discriminate.
  - destruct (match_here (String c s)) as [g|] eqn:E; [|exact IH].
    intros H. injection H as ->.
    unfold match_here in E. apply lit_inv in E.
    destruct E as [_ [s1 [_ [_ E]]]].
    destruct (plus is_word s1 _) as [g|] eqn:E1; unfold or_else in E.
    + injection E as ->. apply plus_inv in E1.
      destruct E1 as [_ [s2 [_ [_ [_ E1]]]]].
      apply lit_inv in E1. destruct E1 as [_ [s3 [_ [_ E1]]]].
      exact (match_body_groups _ _ _ _ E1).
    + exact (match_body_groups _ _ _ _ E).
Qed.

(** ** What a parse returns *)

Lemma to_upper_word (c : ascii) : is_word c = true -> ticker_char (to_upper c) = true.
Proof.
  destruct c as [[] [] [] [] [] [] [] []]; try discriminate; reflexivity.
Qed.

Lemma upper_ticker (t : string) :
  all_chars is_word t = true -> all_chars ticker_char (upper t) = true.
Proof.
  unfold upper. induction t as [|c t IH]; simpl; [reflexivity|].
  rewrite !andb_true_iff. intros [Hc Ht]. split; [now apply to_upper_word | auto].
Qed.

Lemma to_upper_L (c : ascii) : to_lower c = "l"%char -> to_upper c = "L"%char.
Proof.
  destruct c as [[] [] [] [] [] [] [] []]; try discriminate; reflexivity.
Qed.

Lemma to_upper_S (c : ascii) : to_lower c = "s"%char -> to_upper c = "S"%char.
Proof.
  destruct c as [[] [] [] [] [] [] [] []]; try discriminate; reflexivity.
Qed.

Lemma capitalize_long (d : string) : same_ci d "Long" -> capitalize d = "Long".
Proof.
  unfold same_ci. destruct d as [|c d]; simpl; [discriminate|].
  intros E. injection E as Ec Ed. now rewrite (to_upper_L c Ec), Ed.
Qed.

Lemma capitalize_short (d : string) : same_ci d "Short" -> capitalize d = "Short".
Proof.
  unfold same_ci. destruct d as [|c d]; simpl; [discriminate|].
  intros E. injection E as Ec Ed. now rewrite (to_upper_S c Ec), Ed.
Qed.

Lemma digits_value_nonneg (s : string) (acc v : Z) :
  (0 <= acc)%Z -> digits_value acc s = Some v -> (0 <= v)%Z.
Proof.
  revert acc. induction s as [|c s IH]; simpl; intros acc Hacc H.
  - injection H as <-. assumption.
  - destruct (is_digit c); [|discriminate].
    apply (IH (acc * 10 + Z.of_N (N_of_ascii c - 48))%Z); [|assumption].
    pose proof (N2Z.is_nonneg (N_of_ascii c - 48)). lia.
Qed.

Lemma py_float_nonneg (s : string) (v : Q) : py_float s = Some v -> (0 <= v)%Q.
Proof.
  unfold py_float. destruct (split_point s) as [ip fp].
  destruct (digits_value 0 ip) as [i|] eqn:Ei; [|discriminate].
  destruct (digits_value 0 fp) as [f|] eqn:Ef; [|discriminate].
  pose proof (digits_value_nonneg _ _ _ (Z.le_refl 0) Ei) as Hi.
  pose proof (digits_value_nonneg _ _ _ (Z.le_refl 0) Ef) as Hf.
  destruct (_ =? 0)%nat; [discriminate|].
  destruct (_ =? 0)%nat; intros H; injection H as <-.
  - unfold Qle. simpl. lia.
  - unfold Qle. simpl. nia.
Qed.

Lemma _parse_amount_nonneg (s : string) : (0 <= _parse_amount s)%Q.
Proof.
  unfold _parse_amount. destruct (String.eqb s ""); [discriminate|].
  set (t := remove_char "," (remove_char "$" s)).
  destruct (endswith "k" t); [|destruct (endswith "M" t)];
    match goal with
    | |- context [py_float ?x] =>
        destruct (py_float x) as [v|] eqn:E; [|discriminate];
        apply py_float_nonneg in E
    end.
  - apply Qmult_le_0_compat; [assumption | discriminate].
  - apply Qmult_le_0_compat; [assumption | discriminate].
  - apply Qmult_le_0_compat; [assumption | discriminate].
Qed.

(** What the groups of a match become. *)
Lemma parse_shape (message_text : string) (ticker direction : string)
    (amount : Q) :
  parse_liquidation_message message_text = Some (ticker, direction, amount) ->
  ticker <> "" /\ all_chars ticker_char ticker = true /\
  (direction = "Long" \/ direction = "Short") /\
  (0 <= amount)%Q /\
  exists amount_str,
    all_chars amount_char amount_str = true /\ amount = _parse_amount amount_str.
Proof.
  unfold parse_liquidation_message.
  destruct (String.eqb message_text ""); [discriminate|].
  destruct (re_search message_text) as [[[tk dir] amt]|] eqn:E; [|discriminate].
  intros H. injection H as <- <- <-.
  destruct (re_search_groups _ _ _ _ E) as [Hne [Htk [Hdir Hamt]]].
  split; [|split; [|split; [|split]]].
  - destruct tk; [contradiction | discriminate].
  - now apply upper_ticker.
  - destruct Hdir as [Hd|Hd];
      [left; now apply capitalize_long | right; now apply capitalize_short].
  - apply _parse_amount_nonneg.
  - exists amt. auto.
Qed.

(** ** Suffixes in the wrong case *)

Lemma py_float_snoc_letter (s : string) (c : ascii) :
  c <> "."%char -> is_digit c = false -> py_float (s ++ String c "") = None.
Proof.
  intros Hpoint Hdigit.
  destruct (py_float (s ++ String c "")) as [v|] eqn:E; [|reflexivity].
  assert (endswith c (s ++ String c "") = true) as Hend.
  { rewrite endswith_snoc. apply Ascii.eqb_refl. }
  destruct (py_float_last _ v c E Hend); congruence.
Qed.

(** Under [re.IGNORECASE] the pattern lets [K] and [m] through as suffixes,
    but [_parse_amount] looks for [k] and [M] only: whatever stands before
    it, a text ending in [K] or [m] is worth 0, and the pattern does match
    such texts. *)
Theorem wrong_case_suffix_is_zero :
  (forall s, _parse_amount (s ++ "K") = 0%Q /\ _parse_amount (s ++ "m") = 0%Q) /\
  parse_liquidation_message "#BTC Long Liquidation: $2K" = Some ("BTC", "Long", 0%Q) /\
  parse_liquidation_message "#BTC Long Liquidation: $1.5m" = Some ("BTC", "Long", 0%Q).
Proof.
  split; [|split; vm_compute; reflexivity].
  intros s.
  assert (forall c, strip_amount (s ++ String c "")
                    = strip_amount s ++ strip_amount (String c "")) as Happ.
  { intros c. unfold strip_amount. now rewrite !remove_char_app. }
  split.
  - unfold _parse_amount. fold (strip_amount (s ++ "K")).
    rewrite snoc_not_empty, Happ. change (strip_amount "K") with "K".
    rewrite !endswith_snoc.
    change (Ascii.eqb "K" "k") with false. change (Ascii.eqb "K" "M") with false.
    cbv beta iota.
    now rewrite py_float_snoc_letter.
  - unfold _parse_amount. fold (strip_amount (s ++ "m")).
    rewrite snoc_not_empty, Happ. change (strip_amount "m") with "m".
    rewrite !endswith_snoc.
    change (Ascii.eqb "m" "k") with false. change (Ascii.eqb "m" "M") with false.
    cbv beta iota.
    now rewrite py_float_snoc_letter.
Qed.

Local Close Scope string_scope.

(** ** Ingestion *)

(** What one message does.  Either nothing at all (no match, or an amount
    of 0), or: the event goes to the table with the date of the message, its
    amount is positive and its direction [Long] or [Short]; the monitor
    keeps its state, its timers and its speeds; its buffer gets the event at
    the end when it is ACTIVE and is untouched when it is IDLE; and at most
    one single-event embed is posted, only with a positive threshold that
    the amount reaches and a webhook set. *)
Lemma process_message_effect (cfg : Config) (conn : db) (msg : message)
    (monitor : LiquidationMonitor) :
  let '(conn', monitor', posted) := process_message cfg conn msg monitor in
  (conn' = conn /\ monitor' = monitor /\ posted = []) \/
  (exists ticker direction amount,
     parse_liquidation_message (msg_text msg) = Some (ticker, direction, amount) /\
     (0 < amount)%Q /\
     (direction = "Long"%string \/ direction = "Short"%string) /\
     let ev := mkEvent (msg_date msg) ticker direction amount in
     conn' = add_liquidation conn (msg_date msg) ticker direction amount /\
     state monitor' = state monitor /\
     active_since monitor' = active_since monitor /\
     last_summary_sent monitor' = last_summary_sent monitor /\
     last_known_speed monitor' = last_known_speed monitor /\
     prev_known_speed monitor' = prev_known_speed monitor /\
     last_above_threshold_time monitor' = last_above_threshold_time monitor /\
     active_period_events monitor'
       = match state monitor with
         | ACTIVE => active_period_events monitor ++ [ev]
         | IDLE => active_period_events monitor
         end /\
     (posted = [] \/
      (exists color, posted = [mkSingle ev color]) /\
      (0 < SINGLE_EVENT_NOTIFICATION_THRESHOLD cfg)%Q /\
      (SINGLE_EVENT_NOTIFICATION_THRESHOLD cfg <= amount)%Q /\
      webhook_missing cfg = false)).
Proof.
  unfold process_message.
  destruct (parse_liquidation_message (msg_text msg)) as [[[tk dir] amt]|] eqn:E;
    [|now left].
  destruct (_ || _ || _)%bool eqn:Hrej; [now left|].
  right. exists tk, dir, amt.
  apply orb_false_iff in Hrej. destruct Hrej as [_ Hzero].
  destruct (parse_shape _ _ _ _ E) as [_ [_ [Hdir [Hamt _]]]].
  split; [reflexivity|]. split; [|split; [assumption|]].
  { apply Qle_lt_or_eq in Hamt. destruct Hamt as [H|H]; [assumption|].
    symmetry in H. apply Qeq_bool_iff in H. congruence. }
  cbv zeta. split; [reflexivity|].
  destruct (state monitor) eqn:Hs; cbn; rewrite ?Hs;
    repeat (split; [reflexivity|]).
  - destruct (_ && _ && _)%bool eqn:Hp; [right | now left].
    apply andb_true_iff in Hp. destruct Hp as [Hp Hw].
    apply andb_true_iff in Hp. destruct Hp as [Hthr Hge].
    split; [eexists; reflexivity|].
    split; [now apply Qgtb_true|]. split; [now apply Qgeb_true|].
    now apply negb_true_iff.
  - destruct (_ && _ && _)%bool eqn:Hp; [right | now left].
    apply andb_true_iff in Hp. destruct Hp as [Hp Hw].
    apply andb_true_iff in Hp. destruct Hp as [Hthr Hge].
    split; [eexists; reflexivity|].
    split; [now apply Qgtb_true|]. split; [now apply Qgeb_true|].
    now apply negb_true_iff.
Qed.

(** ** Invariants of a run *)

Lemma add_liquidation_rows_ok (conn : db) (timestamp : datetime)
    (ticker direction : string) (amount : Q) :
  Forall row_ok (db_rows conn) -> 0 < amount ->
  (direction = "Long"%string \/ direction = "Short"%string) ->
  Forall row_ok (db_rows (add_liquidation conn timestamp ticker direction amount)).
Proof.
  intros Hrows Hamt Hdir. rewrite Forall_forall in *. intros r Hr.
  unfold add_liquidation in Hr. cbn [db_rows] in Hr.
  apply filter_In in Hr. destruct Hr as [Hr _].
  apply in_app_or in Hr. destruct Hr as [Hr|[<-|[]]]; [auto|].
  repeat split; [eexists; reflexivity | assumption | assumption].
Qed.

Lemma query_events_ok (clock : datetime) (conn : db) (start_time : datetime)
    (end_time : option datetime) :
  Forall row_ok (db_rows conn) ->
  Forall event_ok (get_liquidations_in_timeframe clock conn start_time end_time).
Proof.
  intros Hrows. rewrite Forall_forall in *. intros ev Hev.
  unfold get_liquidations_in_timeframe in Hev.
  apply rows_to_events_In in Hev.
  destruct Hev as [r [Hr [_ [_ [Hd Ha]]]]].
  apply (Permutation_in _ (sort_by_perm older_eqb _)) in Hr.
  apply filter_In in Hr. destruct Hr as [Hr _].
  destruct (Hrows r Hr) as [_ [Hamt Hdir]].
  unfold event_ok. now rewrite <- Hd, <- Ha.
Qed.

Lemma process_message_inv (cfg : Config) (conn : db) (msg : message)
    (monitor : LiquidationMonitor) :
  run_inv (conn, monitor) ->
  run_inv (fst (process_message cfg conn msg monitor)).
Proof.
  intros [Hstore [Hrows [Hevs [Hok Hidle]]]]. cbn [fst snd] in *.
  pose proof (process_message_effect cfg conn msg monitor) as H.
  destruct (process_message cfg conn msg monitor) as [[conn' m'] posted].
  cbn [fst snd].
  destruct H as [[-> [-> _]]|[tk [dir [amt [_ [Hamt [Hdir H]]]]]]].
  { exact (conj Hstore (conj Hrows (conj Hevs (conj Hok Hidle)))). }
  cbv zeta in H.
  destruct H as [-> [Hs [Hsince [_ [_ [Hprev [Habove [Hbuf _]]]]]]]].
  unfold run_inv. cbn [fst snd].
  split; [|split; [|split; [|split]]].
  - destruct Hstore as [Hsok _]. split.
    + now apply add_liquidation_ok.
    + rewrite add_liquidation_length by assumption. apply Nat.le_min_l.
  - now apply add_liquidation_rows_ok.
  - rewrite Hbuf. destruct (state monitor); [assumption|].
    apply Forall_app. split; [assumption|]. constructor; [|constructor].
    split; assumption.
  - unfold monitor_ok. rewrite Hs, Hsince, Habove. exact Hok.
  - rewrite Hs, Hsince, Hprev, Hbuf. intros Hi. rewrite Hi. exact (Hidle Hi).
Qed.

Lemma check_and_transition_inv (cfg : Config) (conn : db) (now : datetime)
    (resp : response) (self m : LiquidationMonitor) (posted : list summary_embed) :
  run_inv (conn, self) ->
  check_and_transition cfg conn now resp self = Done m posted ->
  run_inv (conn, m).
Proof.
  intros [Hstore [Hrows [Hevs [Hok Hidle]]]] Hstep. cbn [fst snd] in *.
  destruct (check_and_transition_returns cfg conn now resp self Hok)
    as [m' [posted' [E Hok']]].
  rewrite E in Hstep. injection Hstep as -> ->.
  unfold run_inv. cbn [fst snd].
  split; [assumption|]. split; [assumption|].
  unfold check_and_transition in E.
  destruct (state self) eqn:Hs.
  - destruct (Hidle eq_refl) as [Hbuf [Hsince Hprev]].
    destruct (Qgeb _ _); [destruct (cooldown_blocks _ _ _)|];
      injection E as <- _; (split; [|split; [exact Hok'|]]); cbn.
    + assumption.
    + intros _. auto.
    + unfold window_events. rewrite Hs. cbn [fst]. now apply query_events_ok.
    + intros H. discriminate.
    + assumption.
    + intros _. auto.
  - destruct (Qltb _ _).
    + destruct (last_above_threshold_time self) as [above|]; [|discriminate].
      destruct (Qgeb _ _).
      * destruct (active_since self) as [since|]; [|discriminate].
        destruct (_send_summary_notification _ _ _ _ _ _) as [m1 p1].
        injection E as <- _. (split; [|split; [exact Hok'|]]); cbn.
        -- constructor.
        -- intros _. auto.
      * injection E as <- _. (split; [|split; [exact Hok'|]]); cbn.
        -- assumption.
        -- congruence.
    + injection E as <- _. (split; [|split; [exact Hok'|]]); cbn.
      * assumption.
      * congruence.
Qed.

Lemma run_action_inv (cfg : Config) (st : db * LiquidationMonitor) (a : action) :
  run_inv st -> run_inv (run_action cfg st a).
Proof.
  destruct st as [conn m]. intros Hinv. destruct a as [now resp|msg]; simpl.
  - destruct (check_and_transition cfg conn now resp m) as [m' posted|] eqn:E;
      [|assumption].
    exact (check_and_transition_inv cfg conn now resp m m' posted Hinv E).
  - pose proof (process_message_inv cfg conn msg m Hinv) as H.
    destruct (process_message cfg conn msg m) as [[conn' m'] posted]. exact H.
Qed.

Lemma run_inv_start : run_inv (empty_db, new_monitor).
Proof.
  unfold run_inv. cbn [fst snd].
  split; [split; [split; constructor | apply Nat.le_0_l]|].
  split; [constructor|]. split; [constructor|].
  split; [intros H; discriminate | intros _; auto].
Qed.

Lemma run_keeps_inv (cfg : Config) (acts : list action) : run_inv (run cfg acts).
Proof.
  unfold run.
  assert (forall st, run_inv st -> run_inv (fold_left (run_action cfg) acts st)) as H.
  { induction acts as [|a acts IH]; intros st Hst; simpl.
    - assumption.
    - apply IH. now apply run_action_inv. }
  apply H. exact run_inv_start.
Qed.

Lemma rows_to_events_length (rows : list row) :
  Forall row_ok rows -> List.length (rows_to_events rows) = List.length rows.
Proof.
  induction 1 as [|r rows [[t Ht] _] _ IH]; simpl.
  - reflexivity.
  - rewrite Ht. simpl. now rewrite IH.
Qed.

(** Along every run from the start of the program the table keeps distinct
    rowids and at most 200 rows, and every row in it has a timestamp that
    parses, a positive amount and the direction [Long] or [Short]; so a
    range query over it leaves no row of its window out. *)
Theorem run_table_well_formed (cfg : Config) (acts : list action)
    (clock start_time : datetime) (end_time : option datetime) :
  let conn := fst (run cfg acts) in
  let stop := match end_time with Some e => e | None => clock end in
  store_inv conn /\ Forall row_ok (db_rows conn) /\
  List.length (get_liquidations_in_timeframe clock conn start_time end_time)
  = List.length (filter (between start_time stop) (db_rows conn)).
Proof.
  intros conn stop.
  destruct (run_keeps_inv cfg acts) as [Hstore [Hrows _]].
  fold conn in Hstore, Hrows.
  split; [assumption|]. split; [assumption|].
  unfold get_liquidations_in_timeframe. fold stop.
  rewrite rows_to_events_length.
  - apply Permutation_length, sort_by_perm.
  - rewrite Forall_forall in *. intros r Hr.
    apply (Permutation_in _ (sort_by_perm older_eqb _)) in Hr.
    apply filter_In in Hr. now apply Hrows.
Qed.

(** Along every run an ACTIVE monitor has [active_since] and
    [last_above_threshold_time] set, so the [datetime] subtractions of the
    ACTIVE branch never meet [None]: whatever the clock reads and the
    webhook answers, the next evaluation does not raise [TypeError]. *)
Theorem run_active_has_timers (cfg : Config) (acts : list action)
    (now : datetime) (resp : response) :
  (state (snd (run cfg acts)) = ACTIVE ->
   exists since above,
     active_since (snd (run cfg acts)) = Some since /\
     last_above_threshold_time (snd (run cfg acts)) = Some above) /\
  check_and_transition cfg (fst (run cfg acts)) now resp (snd (run cfg acts))
  <> TypeError.
Proof.
  destruct (run_keeps_inv cfg acts) as [_ [_ [_ [Hok _]]]].
  split.
  - intros Hs. destruct (Hok Hs) as [[since Hsince] [above Habove]].
    now exists since, above.
  - destruct (check_and_transition_returns cfg (fst (run cfg acts)) now resp _ Hok)
      as [m [posted [E _]]].
    rewrite E. discriminate.
Qed.

(** Along every run an IDLE monitor has an empty buffer, no [active_since]
    and a [prev_known_speed] of 0. *)
Theorem run_idle_is_reset (cfg : Config) (acts : list action) :
  let m := snd (run cfg acts) in
  state m = IDLE ->
  active_period_events m = [] /\ active_since m = None /\
  prev_known_speed m = 0.
Proof.
  intros m. destruct (run_keeps_inv cfg acts) as [_ [_ [_ [_ Hidle]]]].
  exact Hidle.
Qed.

Lemma run_idle_is_reset_witness :
  let m := snd (run default_config cooling_run) in
  active_period_events m = [] /\ active_since m = None /\
  prev_known_speed m = 0.
Proof.
  apply (run_idle_is_reset default_config cooling_run). reflexivity.
Defined.

(** ** Warm start *)

Lemma process_message_idle (cfg : Config) (conn : db) (msg : message)
    (monitor : LiquidationMonitor) :
  state monitor = IDLE ->
  snd (fst (process_message cfg conn msg monitor)) = monitor.
Proof.
  intros Hs. unfold process_message.
  destruct (parse_liquidation_message (msg_text msg)) as [[[tk dir] amt]|];
    [|reflexivity].
  destruct (_ || _ || _)%bool; [reflexivity|]. cbn [fst snd].
  now rewrite Hs.
Qed.

(** Replaying history never starts an active period: an IDLE monitor comes
    out of the warm start exactly as it went in, whatever the messages, and
    the table keeps its invariant. *)
Theorem warm_start_keeps_monitor (cfg : Config) (conn : db)
    (history : list message) (monitor : LiquidationMonitor) :
  state monitor = IDLE ->
  store_inv conn ->
  snd (warm_start cfg conn history monitor) = monitor /\
  store_inv (fst (warm_start cfg conn history monitor)).
Proof.
  intros Hs Hstore. unfold warm_start.
  generalize (rev history) as msgs. intros msgs. revert conn Hstore.
  induction msgs as [|msg msgs IH]; intros conn Hstore; simpl.
  - split; [reflexivity | assumption].
  - destruct (String.eqb (msg_text msg) ""); [now apply IH|].
    pose proof (process_message_idle cfg conn msg monitor Hs) as Hm.
    pose proof (process_message_effect cfg conn msg monitor) as He.
    destruct (process_message cfg conn msg monitor) as [[conn' m'] posted].
    cbn [fst snd] in *. subst m'. apply IH.
    destruct He as [[-> _]|[tk [dir [amt [_ [_ [_ He]]]]]]]; [assumption|].
    cbv zeta in He. destruct He as [-> _]. destruct Hstore as [Hsok _]. split.
    + now apply add_liquidation_ok.
    + rewrite add_liquidation_length by assumption. apply Nat.le_min_l.
Qed.

Lemma warm_start_keeps_monitor_witness :
  snd (warm_start default_config empty_db [second_message; first_message]
         new_monitor) = new_monitor /\
  store_inv (fst (warm_start default_config empty_db
                    [second_message; first_message] new_monitor)).
Proof.
  apply warm_start_keeps_monitor.
  - reflexivity.
  - split; [split; constructor | apply Nat.le_0_l].
Defined.

(** ** Event store: what an append keeps *)

Lemma filter_all {A : Type} (p : A -> bool) (l : list A) :
  (forall x, In x l -> p x = true) -> filter p l = l.
Proof.
  induction l as [|x l IH]; simpl; intros H; [reflexivity|].
  rewrite (H x (or_introl eq_refl)). f_equal. apply IH. intros y Hy. apply H. now right.
Qed.

(** Below the limit an append deletes nothing: the table is the old one
    with the new row at the end. *)
Theorem append_below_limit (conn : db) (timestamp : datetime)
    (ticker direction : string) (amount : Q) :
  store_ok conn ->
  (List.length (db_rows conn) < LIQUIDATION_HISTORY_LIMIT)%nat ->
  db_rows (add_liquidation conn timestamp ticker direction amount)
  = db_rows conn
    ++ [mkRow (db_seq conn + 1) (TsIso timestamp) ticker direction amount].
Proof.
  intros Hok Hlen.
  pose proof (inserted_rows_NoDup conn timestamp ticker direction amount Hok) as Hnd.
  unfold add_liquidation. cbn [db_rows].
  fold (inserted_rows conn timestamp ticker direction amount) in *.
  set (inserted := inserted_rows conn timestamp ticker direction amount) in *.
  apply filter_all. intros r Hr.
  apply (kept_iff_recent _ _ _ Hnd Hr).
  rewrite firstn_all2.
  - now apply (Permutation_in _ (Permutation_sym (sort_by_perm newer_eqb inserted))).
  - rewrite (Permutation_length (sort_by_perm newer_eqb inserted)).
    subst inserted. unfold inserted_rows. rewrite length_app. cbn [List.length].
    lia.
Qed.

Lemma append_below_limit_witness :
  db_rows (add_liquidation empty_db 5%Z "BTC" "Long" 100)
  = [mkRow 1%Z (TsIso 5%Z) "BTC" "Long" 100].
Proof.
  apply (append_below_limit empty_db 5%Z "BTC"%string "Long"%string 100).
  - split; constructor.
  - unfold LIQUIDATION_HISTORY_LIMIT. simpl. lia.
Defined.

Lemma newest_row_recent (conn : db) (timestamp : datetime)
    (ticker direction : string) (amount : Q) :
  store_ok conn ->
  (forall r, In r (db_rows conn) -> (ts_key (row_timestamp r) <= timestamp)%Z) ->
  In (mkRow (db_seq conn + 1) (TsIso timestamp) ticker direction amount)
     (db_rows (add_liquidation conn timestamp ticker direction amount)).
Proof.
  intros Hok Hnewest.
  pose proof (inserted_rows_NoDup conn timestamp ticker direction amount Hok) as Hnd.
  set (new := mkRow (db_seq conn + 1) (TsIso timestamp) ticker direction amount).
  unfold add_liquidation. cbn [db_rows].
  fold (inserted_rows conn timestamp ticker direction amount) in *.
  set (inserted := inserted_rows conn timestamp ticker direction amount) in *.
  assert (In new inserted) as Hnew.
  { subst inserted. unfold inserted_rows. apply in_or_app. right. now left. }
  apply filter_In. split; [assumption|].
  apply (kept_iff_recent _ _ _ Hnd Hnew).
  set (sorted := sort_by newer_eqb inserted).
  assert (In new sorted) as Hs.
  { now apply (Permutation_in _ (Permutation_sym (sort_by_perm newer_eqb inserted))). }
  rewrite <- (firstn_skipn LIQUIDATION_HISTORY_LIMIT sorted) in Hs.
  apply in_app_or in Hs. destruct Hs as [Hs|Hs]; [assumption|].
  destruct sorted as [|h rest] eqn:Es; [destruct Hs|].
  assert (In h inserted) as Hh.
  { apply (Permutation_in _ (sort_by_perm newer_eqb inserted)).
    fold sorted. rewrite Es. now left. }
  assert (newer_eqb h new = true) as Hle.
  { apply (sorted_app_le newer_eqb
             (firstn LIQUIDATION_HISTORY_LIMIT (h :: rest))
             (skipn LIQUIDATION_HISTORY_LIMIT (h :: rest))).
    - rewrite firstn_skipn, <- Es.
      apply (sort_by_sorted newer_eqb newer_eqb_total newer_eqb_trans).
    - now left.
    - assumption. }
  assert (h = new) as ->; [|now left].
  apply (same_id_same_row inserted h new Hnd Hh Hnew).
  subst inserted. unfold inserted_rows in Hh. apply in_app_or in Hh.
  destruct Hh as [Hh|[<-|[]]]; [|reflexivity].
  destruct Hok as [_ Hids]. rewrite Forall_forall in Hids.
  specialize (Hids h Hh). specialize (Hnewest h Hh).
  unfold newer_eqb in Hle. subst new. cbn in Hle.
  apply orb_true_iff in Hle. destruct Hle as [Hle|Hle].
  - apply Z.ltb_lt in Hle. lia.
  - apply andb_true_iff in Hle. destruct Hle as [_ Hle].
    apply Z.leb_le in Hle. simpl. lia.
Qed.

(** Insert, then look up: an event appended with a timestamp no older than
    any stored row is in the table afterwards, and every range query whose
    window holds that timestamp returns it. *)
Theorem append_then_query (conn : db) (timestamp : datetime)
    (ticker direction : string) (amount : Q)
    (clock start_time : datetime) (end_time : option datetime) :
  store_ok conn ->
  (forall r, In r (db_rows conn) -> (ts_key (row_timestamp r) <= timestamp)%Z) ->
  let conn' := add_liquidation conn timestamp ticker direction amount in
  let stop := match end_time with Some e => e | None => clock end in
  In (mkRow (db_seq conn + 1) (TsIso timestamp) ticker direction amount)
     (db_rows conn') /\
  ((start_time <= timestamp <= stop)%Z ->
   In (mkEvent timestamp ticker direction amount)
      (get_liquidations_in_timeframe clock conn' start_time end_time)).
Proof.
  intros Hok Hnewest conn' stop.
  pose proof (newest_row_recent conn timestamp ticker direction amount Hok Hnewest)
    as Hin.
  split; [assumption|]. intros Hwin.
  unfold get_liquidations_in_timeframe. fold stop.
  apply rows_to_events_In.
  exists (mkRow (db_seq conn + 1) (TsIso timestamp) ticker direction amount).
  split; [|repeat split].
  apply (Permutation_in _ (Permutation_sym (sort_by_perm older_eqb _))).
  apply filter_In. split; [assumption|].
  unfold between. cbn. apply andb_true_iff. rewrite !Z.leb_le. assumption.
Qed.

Lemma append_then_query_witness :
  In (mkEvent (timedelta_seconds 400) "SOL" "Long" 42)
     (get_liquidations_in_timeframe 0%Z
        (add_liquidation second_burst_db (timedelta_seconds 400) "SOL" "Long" 42)
        (timedelta_seconds 100) (Some (timedelta_seconds 400))).
Proof.
  apply (append_then_query second_burst_db (timedelta_seconds 400)
           "SOL"%string "Long"%string 42 0%Z (timedelta_seconds 100)
           (Some (timedelta_seconds 400))).
  - split; [repeat constructor; simpl; intuition discriminate
           | repeat constructor; simpl; lia].
  - intros r [<-|[<-|[]]]; simpl; lia.
  - simpl. lia.
Defined.

(** A full table does not take an event older than all it holds: the append
    inserts the row and deletes it at once, and the rows are as before
    (only the AUTOINCREMENT counter has moved). *)
Theorem append_stale_is_dropped (conn : db) (timestamp : datetime)
    (ticker direction : string) (amount : Q) :
  store_ok conn ->
  List.length (db_rows conn) = LIQUIDATION_HISTORY_LIMIT ->
  (forall r, In r (db_rows conn) -> (timestamp < ts_key (row_timestamp r))%Z) ->
  db_rows (add_liquidation conn timestamp ticker direction amount) = db_rows conn /\
  db_seq (add_liquidation conn timestamp ticker direction amount)
  = (db_seq conn + 1)%Z.
Proof.
  intros Hok Hlen Hstale. split; [|reflexivity].
  pose proof (inserted_rows_NoDup conn timestamp ticker direction amount Hok) as Hnd.
  set (new := mkRow (db_seq conn + 1) (TsIso timestamp) ticker direction amount).
  unfold add_liquidation. cbn [db_rows].
  fold (inserted_rows conn timestamp ticker direction amount) in *.
  set (inserted := inserted_rows conn timestamp ticker direction amount) in *.
  set (sorted := sort_by newer_eqb inserted).
  assert (Permutation sorted inserted) as Hperm by apply sort_by_perm.
  assert (StronglySorted (fun a b => newer_eqb a b = true)
            (firstn LIQUIDATION_HISTORY_LIMIT sorted
             ++ skipn LIQUIDATION_HISTORY_LIMIT sorted)) as Hsorted.
  { rewrite firstn_skipn.
    apply (sort_by_sorted newer_eqb newer_eqb_total newer_eqb_trans). }
  assert (In new inserted) as Hnew.
  { subst inserted. unfold inserted_rows. apply in_or_app. right. now left. }
  assert (forall r, In r (db_rows conn) -> newer_eqb new r = false) as Hold.
  { intros r Hr. specialize (Hstale r Hr). unfold newer_eqb. subst new. cbn.
    apply orb_false_iff. split; [apply Z.ltb_ge; lia|].
    apply andb_false_iff. left. apply Z.eqb_neq. lia. }
  assert (forall r, In r (db_rows conn) -> r <> new) as Hdiff.
  { intros r Hr ->. specialize (Hold new Hr).
    destruct (newer_eqb_total new new); congruence. }
  assert (List.length (skipn LIQUIDATION_HISTORY_LIMIT sorted) = 1%nat) as Hskip.
  { rewrite length_skipn, (Permutation_length Hperm).
    subst inserted. unfold inserted_rows. rewrite length_app, Hlen.
    cbn [List.length]. lia. }
  assert (NoDup sorted) as Hnds.
  { apply (Permutation_NoDup (Permutation_sym Hperm)).
    exact (NoDup_map_inv _ _ Hnd). }
  assert (skipn LIQUIDATION_HISTORY_LIMIT sorted = [new]) as Hlast.
  { destruct (skipn LIQUIDATION_HISTORY_LIMIT sorted) as [|x [|y l]] eqn:Es;
      try discriminate.
    f_equal.
    assert (In x inserted) as Hx.
    { apply (Permutation_in _ Hperm).
      rewrite <- (firstn_skipn LIQUIDATION_HISTORY_LIMIT sorted), Es.
      apply in_or_app. right. now left. }
    subst inserted. unfold inserted_rows in Hx. apply in_app_or in Hx.
    destruct Hx as [Hx|[<-|[]]]; [|reflexivity].
    exfalso.
    assert (In new sorted) as Hns
      by now apply (Permutation_in _ (Permutation_sym Hperm)).
    rewrite <- (firstn_skipn LIQUIDATION_HISTORY_LIMIT sorted), Es in Hns.
    apply in_app_or in Hns. destruct Hns as [Hns|[->|[]]].
    - pose proof (sorted_app_le newer_eqb _ _ Hsorted new x Hns
                    (or_introl eq_refl)) as Hle.
      rewrite (Hold x Hx) in Hle. discriminate.
    - exact (Hdiff new Hx eq_refl). }
  assert (forall r, In r inserted ->
            (id_in (select_recent_ids LIQUIDATION_HISTORY_LIMIT inserted) r = true
             <-> r <> new)) as Hkeep.
  { intros r Hr. rewrite (kept_iff_recent _ _ _ Hnd Hr). fold sorted.
    assert (In r sorted) as Hrs
      by now apply (Permutation_in _ (Permutation_sym Hperm)).
    rewrite <- (firstn_skipn LIQUIDATION_HISTORY_LIMIT sorted) in Hrs, Hnds.
    rewrite Hlast in Hrs, Hnds. split.
    - intros Hf ->. apply NoDup_remove_2 in Hnds. apply Hnds.
      rewrite app_nil_r. assumption.
    - intros Hne. apply in_app_or in Hrs.
      destruct Hrs as [Hrs|[->|[]]]; [assumption | contradiction]. }
  subst inserted. unfold inserted_rows in *.
  rewrite filter_app. cbn [filter].
  fold new.
  destruct (id_in _ new) eqn:Enew.
  - exfalso. apply (Hkeep new Hnew); [assumption | reflexivity].
  - rewrite app_nil_r. apply filter_all. intros r Hr.
    apply Hkeep; [apply in_or_app; now left | now apply Hdiff].
Qed.

Lemma append_stale_is_dropped_witness :
  db_rows (add_liquidation full_db (timedelta_seconds 1) "ETH" "Short" 5)
  = db_rows full_db.
Proof.
  assert (store_inv full_db) as [Hok _].
  { unfold full_db. apply add_all_inv.
    split; [split; constructor | apply Nat.le_0_l]. }
  assert (List.length (db_rows full_db) = LIQUIDATION_HISTORY_LIMIT) as Hlen
    by (vm_compute; reflexivity).
  assert (forallb (fun r => (timedelta_seconds 1 <? ts_key (row_timestamp r))%Z)
            (db_rows full_db) = true) as Hall by (vm_compute; reflexivity).
  destruct (append_stale_is_dropped full_db (timedelta_seconds 1)
              "ETH"%string "Short"%string 5 Hok Hlen) as [H _].
  - intros r Hr. apply Z.ltb_lt.
    exact (proj1 (forallb_forall _ _) Hall r Hr).
  - exact H.
Defined.

(** ** Metrics: bounds *)

Lemma ticker_amounts_get (t : string) (events : list event) :
  match dict_get t (ticker_amounts events) with
  | Some v => In t (map ev_ticker events) /\ v == ticker_total t events
  | None => ~ In t (map ev_ticker events)
  end.
Proof.
  pose proof (accumulate_get t events []) as H. simpl in H.
  unfold ticker_amounts.
  destruct (dict_get t (fold_left _ events [])) as [v|].
  - destruct H as [[v0 [H0 _]]|[_ H]]; [discriminate | assumption].
  - tauto.
Qed.

Lemma Qplus_nonneg (a b : Q) : 0 <= a -> 0 <= b -> 0 <= a + b.
Proof.
  intros Ha Hb. apply (Qle_trans _ (0 + 0)); [discriminate|].
  now apply Qplus_le_compat.
Qed.

Lemma sum_amounts_nonneg (p : event -> bool) (events : list event) :
  Forall (fun e => 0 <= ev_amount e) events -> 0 <= sum_amounts p events.
Proof.
  induction 1 as [|e events He _ IH].
  - discriminate.
  - rewrite sum_amounts_cons. destruct (p e).
    + apply Qplus_nonneg; assumption.
    + now rewrite Qplus_0_l.
Qed.

Lemma sum_amounts_le (p q : event -> bool) (events : list event) :
  (forall e, p e = true -> q e = true) ->
  Forall (fun e => 0 <= ev_amount e) events ->
  sum_amounts p events <= sum_amounts q events.
Proof.
  intros Hpq. induction 1 as [|e events He _ IH].
  - discriminate.
  - rewrite !sum_amounts_cons. destruct (p e) eqn:Ep.
    + rewrite (Hpq e Ep). now apply Qplus_le_r.
    + destruct (q e).
      * rewrite Qplus_0_l. rewrite <- (Qplus_0_l (sum_amounts p events)).
        now apply Qplus_le_compat.
      * now apply Qplus_le_r.
Qed.

Lemma ratio_in_unit (x y : Q) : 0 <= x -> x <= y -> 0 < y -> 0 <= x / y <= 1.
Proof.
  intros Hx Hxy Hy. split.
  - apply Qle_shift_div_l; [assumption|]. now rewrite Qmult_0_l.
  - apply Qle_shift_div_r; [assumption|]. now rewrite Qmult_1_l.
Qed.

(** When no amount is negative, the total, the speed and the average are
    not negative, both biases lie between 0 and 1, and so does every
    dominance share. *)
Theorem metrics_bounds (events : list event) (window_seconds : Q) :
  Forall (fun e => 0 <= ev_amount e) events ->
  let m := calculate_liquidation_metrics events window_seconds in
  0 <= total_amount m /\ 0 <= speed_usd_per_sec m /\ 0 <= avg_event_amount m /\
  0 <= long_bias m <= 1 /\ 0 <= short_bias m <= 1 /\
  forall t v, dict_get t (dominance_info m) = Some v -> 0 <= v <= 1.
Proof.
  intros Hpos m. subst m. unfold calculate_liquidation_metrics.
  cbn [speed_usd_per_sec total_amount total_count avg_event_amount
       dominance_info long_bias short_bias].
  pose proof (sum_amounts_nonneg (fun _ => true) events Hpos) as Htot.
  pose proof (sum_amounts_nonneg is_long events Hpos) as Hlong.
  assert (sum_amounts is_long events <= sum_amounts is_directional events) as Hld.
  { apply sum_amounts_le; [|assumption]. intros e He.
    unfold is_directional. now rewrite He. }
  split; [assumption|]. split; [|split; [|split; [|split]]].
  - destruct (Qgtb window_seconds 0) eqn:E; [|discriminate].
    apply Qgtb_true in E. apply Qle_shift_div_l; [assumption|].
    now rewrite Qmult_0_l.
  - destruct (0 <? List.length events)%nat eqn:E; [|discriminate].
    apply Nat.ltb_lt in E. apply Qle_shift_div_l.
    + unfold of_int, Qlt. simpl. lia.
    + now rewrite Qmult_0_l.
  - destruct (Qgtb (sum_amounts is_directional events) 0) eqn:E.
    + apply Qgtb_true in E. now apply ratio_in_unit.
    + split; discriminate.
  - destruct (Qgtb (sum_amounts is_directional events) 0) eqn:E.
    + apply Qgtb_true in E.
      destruct (ratio_in_unit _ _ Hlong Hld E) as [H0 H1].
      set (b := sum_amounts is_long events / sum_amounts is_directional events)
        in *.
      split.
      * apply (Qplus_le_r _ _ b). ring_simplify. exact H1.
      * apply (Qplus_le_r _ _ b). ring_simplify.
        rewrite <- (Qplus_0_l 1) at 1. apply Qplus_le_compat;
          [assumption | apply Qle_refl].
    + split; discriminate.
  - intros t v. destruct (Qgtb (sum_amounts (fun _ => true) events) 0) eqn:E;
      [|discriminate].
    apply Qgtb_true in E. rewrite dict_get_scale.
    pose proof (ticker_amounts_get t events) as H.
    destruct (dict_get t (ticker_amounts events)) as [w|]; [|discriminate].
    destruct H as [_ Hw]. cbn. intros Hv. injection Hv as <-.
    rewrite Hw. unfold ticker_total. apply ratio_in_unit; [|  |assumption].
    + now apply sum_amounts_nonneg.
    + apply sum_amounts_le; [reflexivity | assumption].
Qed.

Lemma metrics_bounds_witness :
  let events := [mkEvent 0%Z "BTC" "Long" 300; mkEvent 1%Z "ETH" "Short" 100] in
  0 <= long_bias (calculate_liquidation_metrics events 300) <= 1.
Proof.
  intros events.
  destruct (metrics_bounds events 300) as [_ [_ [_ [H _]]]].
  - repeat constructor; discriminate.
  - exact H.
Defined.

(** ** Detection state machine: more on the steps *)

(** The escalated title cannot come out of an evaluation: a summary is
    built only when the speed over the buffer is below the threshold, and
    that same speed is the one the title tests against the threshold.  Every
    summary posted has the plain title and colour, a speed below the
    threshold, and the [prev_known_speed] the monitor came in with. *)
Theorem summary_never_critical (cfg : Config) (conn : db) (now : datetime)
    (resp : response) (self m : LiquidationMonitor) (posted : list summary_embed) :
  check_and_transition cfg conn now resp self = Done m posted ->
  forall embed, In embed posted ->
    sum_title embed = HighActivity /\ sum_color embed = 16776960%Z /\
    sum_speed embed < BASE_THRESHOLD_USD_PER_SEC cfg /\
    sum_prev_speed embed = prev_known_speed self.
Proof.
  unfold check_and_transition.
  destruct (state self) eqn:Hs.
  - destruct (Qgeb _ _); [destruct (cooldown_blocks _ _ _)|];
      intros H; injection H as <- <-; intros embed [].
  - destruct (Qltb _ _) eqn:Hlow.
    + destruct (last_above_threshold_time self) as [above|]; [|discriminate].
      destruct (Qgeb _ _).
      * destruct (active_since self) as [since|] eqn:Hsince; [|discriminate].
        rewrite (active_speed cfg conn now self since Hs Hsince) in Hlow.
        apply Qltb_true in Hlow. pose proof Hlow as Hb.
        apply Qgeb_false in Hb.
        unfold _send_summary_notification.
        destruct (webhook_missing cfg).
        -- intros H; injection H as <- <-; intros embed [].
        -- destruct resp; intros H; injection H as <- <-;
             intros embed [<-|[]]; unfold build_summary;
             cbn [sum_title sum_color sum_speed sum_prev_speed];
             rewrite Hb, andb_false_r; auto.
      * intros H; injection H as <- <-; intros embed [].
    + intros H; injection H as <- <-; intros embed [].
Qed.

Lemma summary_never_critical_witness :
  exists m embed,
    check_and_transition default_config burst_db (timedelta_seconds 392)
      ClientError active_monitor = Done m [embed] /\
    sum_title embed = HighActivity /\
    sum_speed embed < BASE_THRESHOLD_USD_PER_SEC default_config.
Proof.
  assert (exists m embed,
            check_and_transition default_config burst_db (timedelta_seconds 392)
              ClientError active_monitor = Done m [embed]) as [m [embed Hstep]].
  { eexists. eexists. vm_compute. reflexivity. }
  exists m, embed. split; [assumption|].
  destruct (summary_never_critical default_config burst_db (timedelta_seconds 392)
              ClientError active_monitor m [embed] Hstep embed
              (or_introl eq_refl)) as [Ht [_ [Hsp _]]].
  split; assumption.
Defined.

(** An evaluation in IDLE posts nothing and leaves [last_summary_sent]
    alone; it enters ACTIVE only if the speed is at or above the threshold
    and the cooldown does not block, and otherwise the buffer,
    [active_since] and [prev_known_speed] stay as they were. *)
Theorem idle_step (cfg : Config) (conn : db) (now : datetime)
    (resp : response) (self m : LiquidationMonitor) (posted : list summary_embed) :
  state self = IDLE ->
  check_and_transition cfg conn now resp self = Done m posted ->
  posted = [] /\ last_summary_sent m = last_summary_sent self /\
  (state m = ACTIVE <->
   BASE_THRESHOLD_USD_PER_SEC cfg <= current_speed cfg conn now self /\
   cooldown_blocks cfg now self = false) /\
  (state m = IDLE ->
   active_period_events m = active_period_events self /\
   active_since m = active_since self /\
   prev_known_speed m = prev_known_speed self).
Proof.
  intros Hs. unfold check_and_transition. rewrite Hs.
  destruct (Qgeb _ _) eqn:Hhigh; [destruct (cooldown_blocks _ _ _) eqn:Hc|];
    intros H; injection H as <- <-; cbn; rewrite ?Hs;
    (split; [reflexivity|]); (split; [reflexivity|]); split.
  - split; [discriminate | intros [_ H]; discriminate].
  - auto.
  - split; [intros _ | reflexivity]. split; [now apply Qgeb_true | reflexivity].
  - discriminate.
  - split; [discriminate|]. intros [H _]. apply Qgeb_true in H. congruence.
  - auto.
Qed.

Lemma idle_step_witness :
  BASE_THRESHOLD_USD_PER_SEC default_config
    <= current_speed default_config burst_db (timedelta_seconds 2) new_monitor /\
  cooldown_blocks default_config (timedelta_seconds 2) new_monitor = false.
Proof.
  assert (exists m,
            check_and_transition default_config burst_db (timedelta_seconds 2)
              ClientError new_monitor = Done m [] /\ state m = ACTIVE)
    as [m [Hstep Hact]].
  { eexists. split; [vm_compute; reflexivity | reflexivity]. }
  destruct (idle_step default_config burst_db (timedelta_seconds 2) ClientError
              new_monitor m [] eq_refl Hstep) as [_ [_ [H _]]].
  exact (proj1 H Hact).
Defined.

(** ** The dominance line of a summary *)

Lemma by_share_desc_total (a b : string * Q) :
  by_share_desc a b = true \/ by_share_desc b a = true.
Proof.
  unfold by_share_desc. rewrite !Qle_bool_iff.
  destruct (Qlt_le_dec (snd a) (snd b)) as [H|H]; [right | left];
    [now apply Qlt_le_weak | assumption].
Qed.

Lemma by_share_desc_trans (a b c : string * Q) :
  by_share_desc a b = true -> by_share_desc b c = true -> by_share_desc a c = true.
Proof.
  unfold by_share_desc. rewrite !Qle_bool_iff. intros H1 H2.
  now apply (Qle_trans _ (snd b)).
Qed.

(** The dominance line shows the three largest shares, largest first: at
    most three entries (all of them when there are fewer), each taken from
    the dominance mapping, in descending order of share, and no entry left
    out has a larger share than one shown. *)
Theorem summary_top_three (cfg : Config) (mt : metrics) (acceleration prev_speed : Q) :
  let shown := sum_dominance (build_summary cfg mt acceleration prev_speed) in
  List.length shown = Nat.min 3 (List.length (dominance_info mt)) /\
  (forall x, In x shown -> In x (dominance_info mt)) /\
  StronglySorted (fun a b => snd b <= snd a) shown /\
  (forall x y, In x shown -> In y (dominance_info mt) -> ~ In y shown ->
               snd y <= snd x).
Proof.
  intros shown. subst shown. unfold build_summary. cbn [sum_dominance].
  set (sorted := sort_by by_share_desc (dominance_info mt)).
  assert (Permutation sorted (dominance_info mt)) as Hperm by apply sort_by_perm.
  assert (StronglySorted (fun a b => by_share_desc a b = true)
            (firstn 3 sorted ++ skipn 3 sorted)) as Hsorted.
  { rewrite firstn_skipn.
    apply (sort_by_sorted by_share_desc by_share_desc_total by_share_desc_trans). }
  split; [|split; [|split]].
  - now rewrite length_firstn, (Permutation_length Hperm).
  - intros x Hx. apply (Permutation_in _ Hperm).
    rewrite <- (firstn_skipn 3 sorted). apply in_or_app. now left.
  - assert (forall l l' : list (string * Q),
              StronglySorted (fun a b => by_share_desc a b = true) (l ++ l') ->
              StronglySorted (fun a b => snd b <= snd a) l) as Hpre.
    { induction l as [|a l IH]; intros l' H; [constructor|].
      inversion H as [|? ? Hs Ha]; subst. constructor; [now apply (IH l')|].
      rewrite Forall_forall in *. intros b Hb.
      apply Qle_bool_iff. apply (Ha b). apply in_or_app. now left. }
    exact (Hpre _ _ Hsorted).
  - intros x y Hx Hy Hnot.
    apply (Permutation_in _ (Permutation_sym Hperm)) in Hy.
    rewrite <- (firstn_skipn 3 sorted) in Hy. apply in_app_or in Hy.
    destruct Hy as [Hy|Hy]; [contradiction|].
    apply Qle_bool_iff.
    exact (sorted_app_le by_share_desc _ _ Hsorted x y Hx Hy).
Qed.

(** ** The measured speed along a run *)

Lemma speed_nonneg (events : list event) (window_seconds : Q) :
  Forall (fun e => 0 <= ev_amount e) events ->
  0 <= speed_usd_per_sec (calculate_liquidation_metrics events window_seconds).
Proof.
  intros Hpos. unfold calculate_liquidation_metrics. cbn [speed_usd_per_sec].
  destruct (Qgtb window_seconds 0) eqn:E; [|discriminate].
  apply Qgtb_true in E. apply Qle_shift_div_l; [assumption|].
  rewrite Qmult_0_l. now apply sum_amounts_nonneg.
Qed.

(** Along every run the speed an evaluation measures is not negative,
    whatever the clock reads, even when it reads a time before
    [active_since]. *)
Theorem run_speed_nonneg (cfg : Config) (acts : list action) (now : datetime) :
  0 <= current_speed cfg (fst (run cfg acts)) now (snd (run cfg acts)).
Proof.
  destruct (run_keeps_inv cfg acts) as [_ [Hrows [Hevs _]]].
  unfold current_speed, window_events.
  assert (forall l, Forall event_ok l -> Forall (fun e => 0 <= ev_amount e) l)
    as Hweak.
  { intros l Hl. rewrite Forall_forall in *. intros e He.
    destruct (Hl e He) as [Hpos _]. now apply Qlt_le_weak. }
  destruct (state (snd (run cfg acts))).
  - apply speed_nonneg, Hweak. now apply query_events_ok.
  - apply speed_nonneg, Hweak. assumption.
Qed.

(** ** Parser and ingestion, as stated for users *)

Local Open Scope string_scope.



Local Close Scope string_scope.

(** What one message of ASCII text does, by what the parser returns.
    With no match nothing changes.  With a match the ticker is not empty,
    the direction is [Long] or [Short] and the amount is not negative; an
    amount of 0 changes nothing; a positive amount puts the event in the
    table with the date of the message, leaves the state, the timers and
    the speeds of the monitor alone, appends the event to the buffer when
    the monitor is ACTIVE and not when it is IDLE, and posts one
    single-event embed exactly when the threshold is positive, the amount
    reaches it and a webhook is configured. *)
Theorem process_message_cases (cfg : Config) (conn : db) (msg : message)
    (monitor : LiquidationMonitor) :
  all_chars is_ascii (msg_text msg) = true ->
  let '(conn', monitor', posted) := process_message cfg conn msg monitor in
  match parse_liquidation_message (msg_text msg) with
  | None => conn' = conn /\ monitor' = monitor /\ posted = []
  | Some (ticker, direction, amount) =>
      ticker <> ""%string /\
      (direction = "Long"%string \/ direction = "Short"%string) /\
      (0 <= amount)%Q /\
      ((amount == 0)%Q -> conn' = conn /\ monitor' = monitor /\ posted = []) /\
      ((0 < amount)%Q ->
       let ev := mkEvent (msg_date msg) ticker direction amount in
       let wanted :=
         (0 < SINGLE_EVENT_NOTIFICATION_THRESHOLD cfg)%Q /\
         (SINGLE_EVENT_NOTIFICATION_THRESHOLD cfg <= amount)%Q /\
         webhook_missing cfg = false in
       conn' = add_liquidation conn (msg_date msg) ticker direction amount /\
       state monitor' = state monitor /\
       active_since monitor' = active_since monitor /\
       last_summary_sent monitor' = last_summary_sent monitor /\
       last_known_speed monitor' = last_known_speed monitor /\
       prev_known_speed monitor' = prev_known_speed monitor /\
       last_above_threshold_time monitor' = last_above_threshold_time monitor /\
       active_period_events monitor'
       = match state monitor with
         | ACTIVE => active_period_events monitor ++ [ev]
         | IDLE => active_period_events monitor
         end /\
       (wanted ->
        posted = [mkSingle ev (if String.eqb direction "Short"
                               then 5763719%Z else 15548997%Z)]) /\
       (~ wanted -> posted = []))
  end.
Proof.
  intros _. unfold process_message.
  destruct (parse_liquidation_message (msg_text msg)) as [[[tk dir] amt]|] eqn:E;
    [|auto].
  destruct (parse_shape _ _ _ _ E) as [Hne [_ [Hdir [Hamt _]]]].
  assert (String.eqb tk "" = false) as Htk.
  { destruct tk; [now contradiction Hne | reflexivity]. }
  assert (String.eqb dir "" = false) as Hd.
  { destruct Hdir as [->| ->]; reflexivity. }
  rewrite Htk, Hd. cbn [orb].
  destruct (Qeq_bool amt 0) eqn:Hz.
  - split; [assumption|]. split; [assumption|]. split; [assumption|].
    split; [auto|]. intros Hpos. apply Qeq_bool_iff in Hz.
    rewrite Hz in Hpos. now apply Qlt_irrefl in Hpos.
  - split; [assumption|]. split; [assumption|]. split; [assumption|].
    split.
    { intros H0. apply Qeq_bool_iff in H0. congruence. }
    intros Hpos. cbv zeta. split; [reflexivity|].
    assert (forall b : bool,
              b = Qgtb (SINGLE_EVENT_NOTIFICATION_THRESHOLD cfg) 0
                  && Qgeb amt (SINGLE_EVENT_NOTIFICATION_THRESHOLD cfg)
                  && negb (webhook_missing cfg) ->
              (b = true <->
               (0 < SINGLE_EVENT_NOTIFICATION_THRESHOLD cfg)%Q /\
               (SINGLE_EVENT_NOTIFICATION_THRESHOLD cfg <= amt)%Q /\
               webhook_missing cfg = false)) as Hwanted.
    { intros b ->. rewrite !andb_true_iff, negb_true_iff, Qgtb_true, Qgeb_true.
      tauto. }
    specialize (Hwanted _ eq_refl).
    destruct (state monitor) eqn:Hs; cbn; rewrite ?Hs;
      repeat (split; [reflexivity|]);
      destruct (_ && _ && _)%bool;
      (split; [intros H | intros H]);
      first [reflexivity
            | apply Hwanted in H; discriminate H
            | exfalso; apply H; now apply Hwanted ].
Qed.

Lemma process_message_cases_witness :
  fst (fst (process_message default_config empty_db first_message new_monitor))
  = add_liquidation empty_db (timedelta_seconds 1) "BTC" "Long" 7000000.
Proof.
  pose proof (process_message_cases default_config empty_db first_message
                new_monitor eq_refl) as H.
  destruct (process_message default_config empty_db first_message new_monitor)
    as [[conn' monitor'] posted].
  assert (parse_liquidation_message (msg_text first_message)
          = Some ("BTC"%string, "Long"%string, 7000000)) as Hp.
  { vm_compute. reflexivity. }
  rewrite Hp in H. destruct H as [_ [_ [_ [_ H]]]].
  exact (proj1 (H eq_refl)).
Defined.

(** ** Witnesses for the steps of the state machine *)

Lemma active_exit_iff_witness :
  exists m posted,
    check_and_transition default_config burst_db (timedelta_seconds 392)
      ClientError active_monitor = Done m posted /\ state m = IDLE.
Proof.
  apply (active_exit_iff default_config burst_db (timedelta_seconds 392)
           ClientError active_monitor (timedelta_seconds 2)
           (timedelta_seconds 352)); try reflexivity.
  split; [reflexivity | vm_compute; discriminate].
Defined.

Lemma single_dip_stays_active_witness :
  exists m1 m2,
    check_and_transition default_config burst_db (timedelta_seconds 352)
      ClientError entered_monitor = Done m1 [] /\
    check_and_transition default_config burst_db (timedelta_seconds 372)
      ClientError
      (set_active_period_events (active_period_events m1 ++ []) m1)
    = Done m2 [] /\ state m2 = ACTIVE.
Proof.
  assert (exists m1,
            check_and_transition default_config burst_db (timedelta_seconds 352)
              ClientError entered_monitor = Done m1 []) as [m1 Hstep].
  { eexists. vm_compute. reflexivity. }
  destruct (single_dip_stays_active default_config burst_db burst_db
              (timedelta_seconds 352) (timedelta_seconds 372)
              ClientError ClientError entered_monitor m1 (timedelta_seconds 2)
              [] []) as [m2 [H2 Hact]].
  - reflexivity.
  - reflexivity.
  - vm_compute. discriminate.
  - exact Hstep.
  - reflexivity.
  - exists m1, m2. auto.
Defined.

Lemma summary_sent_only_on_success_witness :
  exists m embed,
    check_and_transition default_config burst_db (timedelta_seconds 392)
      (Posted (timedelta_seconds 392 + 1)%Z) active_monitor = Done m [embed] /\
    last_summary_sent m = Some (timedelta_seconds 392 + 1)%Z.
Proof.
  assert (exists m embed,
            check_and_transition default_config burst_db (timedelta_seconds 392)
              (Posted (timedelta_seconds 392 + 1)%Z) active_monitor
            = Done m [embed] /\ state m = IDLE) as [m [embed [Hstep Hidle]]].
  { eexists. eexists. split; [vm_compute; reflexivity | reflexivity]. }
  exists m, embed. split; [assumption|].
  destruct (summary_sent_only_on_success _ _ _ _ _ _ _ Hstep) as [H _].
  exact (proj2 (H eq_refl Hidle eq_refl)).
Defined.

Lemma posted_at_most_once_witness :
  exists m embed,
    check_and_transition default_config burst_db (timedelta_seconds 392)
      ClientError active_monitor = Done m [embed] /\
    ([embed] = [] \/
     exists embed', [embed] = [embed'] /\ state active_monitor = ACTIVE /\
                    state m = IDLE /\ webhook_missing default_config = false).
Proof.
  assert (exists m embed,
            check_and_transition default_config burst_db (timedelta_seconds 392)
              ClientError active_monitor = Done m [embed]) as [m [embed Hstep]].
  { eexists. eexists. vm_compute. reflexivity. }
  exists m, embed. split; [assumption|].
  exact (posted_at_most_once _ _ _ _ _ _ _ Hstep).
Defined.
